(** * poolsched: GitLab targets of the pool scheduler

    A shallow embedding of [poolsched/models/targets/gitlab.py]: the
    Django models [GLRepo], [GLToken], [IGLRaw], [IGLEnrich] and their
    methods, over an explicit relational store.  Each table is a list of
    rows kept in primary-key order (rows are appended with fresh keys), so
    that the first row of a filtered list is what [.first()] and
    [queryset[0]] deliver.  Many-to-many fields are their through tables:
    lists of key pairs to which [add] appends a pair only when it is
    absent.  Timestamps are integers counting microseconds, the
    resolution of [datetime]. *)

From Stdlib Require Import ZArith List String Bool Lia.
Import ListNotations.
Local Open Scope Z_scope.

Set Implicit Arguments.

(** ** Exceptions and results *)

Inductive exn : Type :=
| StopException            (* Job.StopException *)
| DoesNotExist             (* Model.DoesNotExist *)
| MultipleObjectsReturned  (* Model.MultipleObjectsReturned *)
| AttributeError           (* attribute access on None *)
| OverflowError            (* datetime arithmetic out of range *)
| RunnerError.             (* any exception raised by a mordred runner *)

Inductive result (A : Type) : Type :=
| Ok (a : A)
| Raise (e : exn).

Arguments Ok {A} a.
Arguments Raise {A} e.

(** ** Rows *)

Record GLInstance : Type := mkGLInstance {
  name : string;
  endpoint : string
}.

Record GLRepo : Type := mkGLRepo {
  repo_id : Z;
  owner : string;
  repo : string;
  instance : option GLInstance      (* null=True, default=None *)
}.

(** Modelled from the spec: the [Job] model of [poolsched/models/jobs.py]
    is not part of the sources at hand; a job is an identifier and an
    optional assigned worker. *)
Record Job : Type := mkJob {
  job_id : Z;
  worker : option Z
}.

Record GLToken : Type := mkGLToken {
  token_id : Z;
  token : string;
  reset : Z;
  token_user : option Z             (* null=True, default=None *)
}.

(** Modelled from the spec: the [Intention] base model of
    [poolsched/models/intentions.py] is not part of the sources at hand;
    an intention has a user, an optional job and a creation time, and its
    [previous] set lives in a through table of the store.  [IGLRaw] and
    [IGLEnrich] both add the [repo] foreign key; their keys come from the
    one sequence of the base model. *)
Record Intention : Type := mkIntention {
  pk : Z;
  user : Z;
  irepo : GLRepo;
  job : option Z;
  created : Z
}.

(** Modelled from the spec: [ArchivedIntention] of
    [poolsched/models/intentions.py]; the terminal statuses. *)
Inductive status : Type := OK | ERROR | CANCELLED.

Record Archived : Type := mkArchived {
  a_user : Z;
  a_repo : GLRepo;
  a_created : Z;
  a_status : status
}.

(** ** The store *)

Record Store : Type := mkStore {
  jobs : list Job;
  next_job_id : Z;
  gltokens : list GLToken;
  gltoken_jobs : list (Z * Z);      (* GLToken.jobs: (token, job) *)
  iglraw : list Intention;
  iglenrich : list Intention;
  next_intention_id : Z;
  previous : list (Z * Z);          (* Intention.previous: (from, to) *)
  iglraw_archived : list Archived;
  iglenrich_archived : list Archived
}.


Definition set_jobs (st : Store) (js : list Job) (n : Z) : Store :=
  mkStore js n (gltokens st) (gltoken_jobs st) (iglraw st) (iglenrich st)
          (next_intention_id st) (previous st)
          (iglraw_archived st) (iglenrich_archived st).

Definition set_gltokens (st : Store) (ts : list GLToken) : Store :=
  mkStore (jobs st) (next_job_id st) ts (gltoken_jobs st) (iglraw st)
          (iglenrich st) (next_intention_id st) (previous st)
          (iglraw_archived st) (iglenrich_archived st).

Definition set_gltoken_jobs (st : Store) (tj : list (Z * Z)) : Store :=
  mkStore (jobs st) (next_job_id st) (gltokens st) tj (iglraw st)
          (iglenrich st) (next_intention_id st) (previous st)
          (iglraw_archived st) (iglenrich_archived st).

Definition set_iglraw (st : Store) (rs : list Intention) (n : Z) : Store :=
  mkStore (jobs st) (next_job_id st) (gltokens st) (gltoken_jobs st) rs
          (iglenrich st) n (previous st)
          (iglraw_archived st) (iglenrich_archived st).

Definition set_iglenrich (st : Store) (rs : list Intention) : Store :=
  mkStore (jobs st) (next_job_id st) (gltokens st) (gltoken_jobs st)
          (iglraw st) rs (next_intention_id st) (previous st)
          (iglraw_archived st) (iglenrich_archived st).

Definition set_previous (st : Store) (p : list (Z * Z)) : Store :=
  mkStore (jobs st) (next_job_id st) (gltokens st) (gltoken_jobs st)
          (iglraw st) (iglenrich st) (next_intention_id st) p
          (iglraw_archived st) (iglenrich_archived st).

(** ** Relational helpers: what the Django ORM calls do *)

Definition pair_eqb (p q : Z * Z) : bool :=
  (fst p =? fst q) && (snd p =? snd q).

Definition has_pair (p : Z * Z) (l : list (Z * Z)) : bool :=
  existsb (pair_eqb p) l.

(** [manager.add(obj)] on a many-to-many field: no row is written when
    the pair is already there. *)
Definition m2m_add (p : Z * Z) (l : list (Z * Z)) : list (Z * Z) :=
  if has_pair p l then l else l ++ [p].

(** [Job.objects.get(pk=j)]. *)
Definition get_job (st : Store) (j : Z) : option Job :=
  find (fun r => job_id r =? j) (jobs st).

(** [row.save()] of a row that has a key: UPDATE the row of that key, or
    INSERT when no row has it. *)
Fixpoint save_job (r : Job) (l : list Job) : list Job :=
  match l with
  | [] => [r]
  | x :: l' => if job_id x =? job_id r then r :: l' else x :: save_job r l'
  end.

Fixpoint save_token (r : GLToken) (l : list GLToken) : list GLToken :=
  match l with
  | [] => [r]
  | x :: l' =>
      if token_id x =? token_id r then r :: l' else x :: save_token r l'
  end.

(** For an intention the two cases apart: the UPDATE of the row that has
    the key, and the INSERT of a row at the place of its key, before the
    first row of a greater key, so that a table in key order stays so. *)
Fixpoint update_intention (r : Intention) (l : list Intention)
  : list Intention :=
  match l with
  | [] => []
  | x :: l' => if pk x =? pk r then r :: l' else x :: update_intention r l'
  end.

Fixpoint insert_intention (r : Intention) (l : list Intention)
  : list Intention :=
  match l with
  | [] => [r]
  | x :: l' => if pk r <? pk x then r :: x :: l'
               else x :: insert_intention r l'
  end.

Definition save_intention (r : Intention) (l : list Intention)
  : list Intention :=
  if existsb (fun x => pk x =? pk r) l then update_intention r l
  else insert_intention r l.

Definition with_job (i : Intention) (j : option Z) : Intention :=
  mkIntention (pk i) (user i) (irepo i) j (created i).

(** [self.save()] of an intention object of either model. *)
Definition save_raw (self : Intention) (st : Store) : Store :=
  set_iglraw st (save_intention self (iglraw st)) (next_intention_id st).

Definition save_enrich (self : Intention) (st : Store) : Store :=
  set_iglenrich st (save_intention self (iglenrich st)).

(** [token.jobs.count()]. *)
Definition jobs_count (st : Store) (t : Z) : Z :=
  Z.of_nat (List.length (filter (fun p => fst p =? t) (gltoken_jobs st))).

(** An intention has no [previous] row: what [filter(previous=None)]
    keeps. *)
Definition previous_empty (st : Store) (i : Z) : bool :=
  negb (existsb (fun p => fst p =? i) (previous st)).

Definition user_is (u : Z) (t : GLToken) : bool :=
  match token_user t with
  | Some v => v =? u
  | None => false
  end.

(** ** GLRepo *)

(** [GLRepo.url]: the endpoint of the instance is read through a
    nullable foreign key. *)
Definition url (r : GLRepo) : result string :=
  match instance r with
  | Some i => Ok (endpoint i ++ "/" ++ owner r ++ "/" ++ repo r)%string
  | None => Raise AttributeError
  end.

(** ** GLToken *)

Definition MAX_JOBS_TOKEN : Z := 3.

(** [GLToken.is_ready]: [now() > self.reset]. *)
Definition is_ready (now : Z) (t : GLToken) : bool :=
  reset t <? now.

(** ** datetime arithmetic

    A [datetime] is the number of microseconds since [datetime.min];
    [datetime.max] is the last microsecond of year 9999.  A [timedelta]
    is a number of microseconds whose day count has magnitude at most
    999999999.  Python raises [OverflowError] outside these ranges. *)

Definition DAY : Z := 86400000000.
Definition MINUTE : Z := 60000000.
Definition DATETIME_MAX : Z := 3652059 * DAY - 1.

Definition timedelta_minutes (n : Z) : result Z :=
  let us := n * MINUTE in
  if (-999999999 <=? us / DAY) && (us / DAY <=? 999999999)
  then Ok us else Raise OverflowError.

Definition datetime_add (d delta : Z) : result Z :=
  if (0 <=? d + delta) && (d + delta <=? DATETIME_MAX)
  then Ok (d + delta) else Raise OverflowError.

(** ** The global logger *)

(** Modelled from the spec: [utils.file_formatter] of [poolsched/utils.py]
    is not part of the sources at hand; it returns a new file handler for
    a path derived from the job identifier.  [handler_uid] is the
    identity of the Python object. *)
Record Handler : Type := mkHandler {
  handler_uid : Z;
  handler_job : Z
}.

Definition fresh_uid (l : list Handler) : Z :=
  1 + fold_right Z.max 0 (map handler_uid l).

Definition file_formatter (job_pk : Z) (l : list Handler) : Handler :=
  mkHandler (fresh_uid l) job_pk.

(** [Logger.addHandler]: appended unless already registered. *)
Definition addHandler (h : Handler) (l : list Handler) : list Handler :=
  if existsb (fun x => handler_uid x =? handler_uid h) l
  then l else l ++ [h].

(** [Logger.removeHandler]: the first registration of the object goes. *)
Fixpoint removeHandler (h : Handler) (l : list Handler) : list Handler :=
  match l with
  | [] => []
  | x :: l' =>
      if handler_uid x =? handler_uid h then l'
      else x :: removeHandler h l'
  end.

Definition holds_handler (h : Handler) (l : list Handler) : bool :=
  existsb (fun x => handler_uid x =? handler_uid h) l.

(** ** Queries shared by the two intention models *)

Definition same_repo (a b : GLRepo) : bool := repo_id a =? repo_id b.

Definition has_job (i : Intention) : bool :=
  match job i with Some _ => true | None => false end.

(** [select_related('job')]: the joined job row of an intention. *)
Definition related_job (st : Store) (i : Intention) : option Job :=
  match job i with
  | Some j => get_job st j
  | None => None
  end.

Definition no_worker (r : Job) : bool :=
  match worker r with Some _ => false | None => true end.

(** [job__gltoken__reset__lt=now]: some token attached to the job has its
    [reset] before [now]. *)
Definition token_reset_before (st : Store) (now : Z) (j : Z) : bool :=
  existsb (fun t => has_pair (token_id t, j) (gltoken_jobs st)
                    && (reset t <? now))
          (gltokens st).

(** [job.worker = worker; job.save()]. *)
Definition assign_worker (w : Z) (r : Job) (st : Store)
  : option Job * Store :=
  let r' := mkJob (job_id r) (Some w) in
  (Some r', set_jobs st (save_job r' (jobs st)) (next_job_id st)).

(** [Job.objects.create(worker=worker)]. *)
Definition create_job_row (w : Z) (st : Store) : Job * Store :=
  let r := mkJob (next_job_id st) (Some w) in
  (r, set_jobs st (jobs st ++ [r]) (next_job_id st + 1)).

(** [token.jobs.add(job)]. *)
Definition token_jobs_add (t : GLToken) (j : Z) (st : Store) : Store :=
  set_gltoken_jobs st (m2m_add (token_id t, j) (gltoken_jobs st)).

(** The cascade of [intention.delete()] on the [previous] through table. *)
Definition drop_previous (i : Z) (l : list (Z * Z)) : list (Z * Z) :=
  filter (fun p => negb ((fst p =? i) || (snd p =? i))) l.

Definition delete_intention (i : Z) (l : list Intention) : list Intention :=
  filter (fun x => negb (pk x =? i)) l.

(** ** IRawManager *)

Module IRawManager.

(** [selectable_intentions(user, max)]. *)
Definition selectable_intentions
  (now : Z) (u : Z) (max : nat) (st : Store) : list Intention :=
  let token_available :=
    existsb (fun t => user_is u t
                      && (jobs_count st (token_id t) <? MAX_JOBS_TOKEN)
                      && (reset t <? now))
            (gltokens st) in
  if negb token_available then []
  else firstn max
         (filter (fun i => previous_empty st (pk i)
                           && (user i =? u)
                           && negb (has_job i))
                 (iglraw st)).

End IRawManager.

(** ** IGLRaw *)

Module IGLRaw.

(** The rows kept by [exclude(job=None).filter(job__worker=None)
    .filter(job__gltoken__reset__lt=now())]. *)
Definition waiting (st : Store) (now : Z) (i : Intention) : bool :=
  match related_job st i with
  | Some r => no_worker r && token_reset_before st now (job_id r)
  | None => false
  end.

(** [IGLRaw.next_job(worker)], one atomic transaction. *)
Definition next_job (w : Z) (now : Z) (st : Store) : option Job * Store :=
  match find (waiting st now) (iglraw st) with
  | Some intention =>
      match related_job st intention with
      | Some r => assign_worker w r st
      | None => (None, st)         (* no such row passes the filter *)
      end
  | None => (None, st)
  end.

(** [IGLRaw.create_previous()]. *)
Definition create_previous (self : Intention) (st : Store)
  : result (list Intention) * Store :=
  (Ok [], st).

(** [self.repo.iglraw_set.filter(job__isnull=False)]. *)
Definition candidates (self : Intention) (st : Store) : list Intention :=
  filter (fun i => same_repo (irepo i) (irepo self) && has_job i)
         (iglraw st).

(** [IGLRaw.running_job()]; the intention object is returned with the
    store, since the method assigns to [self.job]. *)
Definition running_job (self : Intention) (st : Store)
  : result (option Job) * Intention * Store :=
  match candidates self st with
  | [] => (Ok None, self, st)                       (* IndexError *)
  | c :: _ =>
      match related_job st c with
      | None => (Raise DoesNotExist, self, st)
      | Some r =>
          let self' := with_job self (Some (job_id r)) in
          let st1 := save_raw self' st in
          let tokens := filter (user_is (user self')) (gltokens st1) in
          let st2 := fold_left (fun s t => token_jobs_add t (job_id r) s)
                               tokens st1 in
          (Ok (Some r), self', st2)
      end
  end.

(** The body of the loop of [create_job] over the user's tokens:
    [job] is the local variable, [self] the intention object. *)
Fixpoint create_job_loop (w : Z) (tokens : list GLToken)
  (self : Intention) (jobv : option Job) (st : Store)
  : Intention * option Job * Store :=
  match tokens with
  | [] => (self, jobv, st)
  | t :: tokens' =>
      if jobs_count st (token_id t) <? MAX_JOBS_TOKEN then
        let '(j, self1, jobv1, st1) :=
          match job self with
          | None =>
              let '(r, st') := create_job_row w st in
              (job_id r, with_job self (Some (job_id r)), Some r, st')
          | Some j => (j, self, jobv, st)
          end in
        create_job_loop w tokens' self1 jobv1 (token_jobs_add t j st1)
      else create_job_loop w tokens' self jobv st
  end.

(** [IGLRaw.create_job(worker)].  Run without a concurrent writer, the
    transaction raises no [IntegrityError]. *)
Definition create_job (w : Z) (self : Intention) (st : Store)
  : option Job * Intention * Store :=
  let tokens := filter (user_is (user self)) (gltokens st) in
  let '(self', jobv, st') := create_job_loop w tokens self None st in
  (jobv, self', st').

(** [job.gltokens.filter(reset__lt=now()).first()]. *)
Definition ready_token (st : Store) (now : Z) (j : Job) : option GLToken :=
  find (fun t => has_pair (token_id t, job_id j) (gltoken_jobs st)
                 && (reset t <? now))
       (gltokens st).

Definition with_reset (t : GLToken) (r : Z) : GLToken :=
  mkGLToken (token_id t) (token t) r (token_user t).

(** [IGLRaw.run(job)].  [GitLabRaw url token] is what building the
    runner and calling its [run()] gives; [now0] and [now1] are the two
    readings of the clock. *)
Definition run (GitLabRaw : string -> string -> result Z)
  (now0 now1 : Z) (self : Intention) (j : Job)
  (st : Store) (lg : list Handler)
  : result bool * Store * list Handler :=
  match ready_token st now0 j with
  | None => (Raise StopException, st, lg)
  | Some tok =>
      let fh := file_formatter (job_id j) lg in
      let lg1 := addHandler fh lg in
      let output :=
        match url (irepo self) with
        | Ok u =>
            match GitLabRaw u (token tok) with
            | Ok n => n
            | Raise _ => 1
            end
        | Raise _ => 1
        end in
      let lg2 := removeHandler fh lg1 in
      if output =? 1 then (Raise StopException, st, lg2)
      else if negb (output =? 0) then
        match timedelta_minutes output with
        | Raise e => (Raise e, st, lg2)
        | Ok delta =>
            match datetime_add now1 delta with
            | Raise e => (Raise e, st, lg2)
            | Ok r =>
                (Ok false,
                 set_gltokens st (save_token (with_reset tok r)
                                             (gltokens st)),
                 lg2)
            end
        end
      else (Ok true, st, lg2)
  end.

(** [IGLRaw.archive(status)]. *)
Definition archive (s : status) (self : Intention) (st : Store) : Store :=
  mkStore (jobs st) (next_job_id st) (gltokens st) (gltoken_jobs st)
          (delete_intention (pk self) (iglraw st)) (iglenrich st)
          (next_intention_id st) (drop_previous (pk self) (previous st))
          (iglraw_archived st
             ++ [mkArchived (user self) (irepo self) (created self) s])
          (iglenrich_archived st).

End IGLRaw.

(** ** IEnrichedManager *)

Module IEnrichedManager.

(** [selectable_intentions(user, max)]. *)
Definition selectable_intentions
  (u : Z) (max : nat) (st : Store) : list Intention :=
  firstn max
    (filter (fun i => previous_empty st (pk i)
                      && (user i =? u)
                      && negb (has_job i))
            (iglenrich st)).

End IEnrichedManager.

(** ** IGLEnrich *)

Module IGLEnrich.

(** The rows kept by [exclude(job=None).filter(job__worker=None)]. *)
Definition waiting (st : Store) (i : Intention) : bool :=
  match related_job st i with
  | Some r => no_worker r
  | None => false
  end.

(** [IGLEnrich.next_job(worker)], one atomic transaction. *)
Definition next_job (w : Z) (st : Store) : option Job * Store :=
  match find (waiting st) (iglenrich st) with
  | Some intention =>
      match related_job st intention with
      | Some r => assign_worker w r st
      | None => (None, st)         (* no such row passes the filter *)
      end
  | None => (None, st)
  end.

(** [IGLRaw.objects.get_or_create(repo=..., user=...)]: the rows that
    [get] matches. *)
Definition raw_matches (self : Intention) (st : Store) : list Intention :=
  filter (fun i => same_repo (irepo i) (irepo self) && (user i =? user self))
         (iglraw st).

(** [IGLEnrich.create_previous()]; [now] is the default of [created]
    for a row that has to be created. *)
Definition create_previous (now : Z) (self : Intention) (st : Store)
  : result (list Intention) * Store :=
  match raw_matches self st with
  | [] =>
      let raw_intention :=
        mkIntention (next_intention_id st) (user self) (irepo self)
                    None now in
      let st1 := set_iglraw st (iglraw st ++ [raw_intention])
                            (next_intention_id st + 1) in
      (Ok [raw_intention],
       set_previous st1 (m2m_add (pk self, pk raw_intention)
                                 (previous st1)))
  | [raw_intention] =>
      (Ok [raw_intention],
       set_previous st (m2m_add (pk self, pk raw_intention)
                                (previous st)))
  | _ :: _ :: _ => (Raise MultipleObjectsReturned, st)
  end.

(** [self.repo.iglenrich_set.filter(job__isnull=False)]. *)
Definition candidates (self : Intention) (st : Store) : list Intention :=
  filter (fun i => same_repo (irepo i) (irepo self) && has_job i)
         (iglenrich st).

(** [IGLEnrich.running_job()]. *)
Definition running_job (self : Intention) (st : Store)
  : result (option Job) * Intention * Store :=
  match candidates self st with
  | [] => (Ok None, self, st)                       (* IndexError *)
  | c :: _ =>
      match related_job st c with
      | None => (Raise DoesNotExist, self, st)
      | Some r =>
          let self' := with_job self (Some (job_id r)) in
          (Ok (Some r), self', save_enrich self' st)
      end
  end.

(** [IGLEnrich.create_job(worker)]. *)
Definition create_job (w : Z) (self : Intention) (st : Store)
  : option Job * Intention * Store :=
  match job self with
  | None =>
      let '(r, st') := create_job_row w st in
      (Some r, with_job self (Some (job_id r)), st')
  | Some _ => (None, self, st)
  end.

(** [IGLEnrich.run(job)].  [GitLabEnrich url] is what building the
    runner and calling its [run()] gives: an error message, empty on
    success. *)
Definition run (GitLabEnrich : string -> result string)
  (self : Intention) (j : Job) (st : Store) (lg : list Handler)
  : result bool * Store * list Handler :=
  let fh := file_formatter (job_id j) lg in
  let lg1 := addHandler fh lg in
  match url (irepo self) with
  | Raise e => (Raise e, st, lg1)
  | Ok u =>
      match GitLabEnrich u with
      | Raise e => (Raise e, st, lg1)
      | Ok output =>
          let lg2 := removeHandler fh lg1 in
          if negb (String.eqb output EmptyString) then (Raise StopException, st, lg2)
          else (Ok true, st, lg2)
      end
  end.

(** [IGLEnrich.archive(status)]. *)
Definition archive (s : status) (self : Intention) (st : Store) : Store :=
  mkStore (jobs st) (next_job_id st) (gltokens st) (gltoken_jobs st)
          (iglraw st) (delete_intention (pk self) (iglenrich st))
          (next_intention_id st) (drop_previous (pk self) (previous st))
          (iglraw_archived st)
          (iglenrich_archived st
             ++ [mkArchived (user self) (irepo self) (created self) s]).

End IGLEnrich.

(** ** The calls of the module as transitions of the store *)

Inductive call : Type :=
| RawNextJob (w now : Z)
| RawCreatePrevious (self : Intention)
| RawRunningJob (self : Intention)
| RawCreateJob (w : Z) (self : Intention)
| RawRun (runner : string -> string -> result Z) (now0 now1 : Z)
         (self : Intention) (j : Job) (lg : list Handler)
| RawArchive (s : status) (self : Intention)
| EnrichNextJob (w : Z)
| EnrichCreatePrevious (now : Z) (self : Intention)
| EnrichRunningJob (self : Intention)
| EnrichCreateJob (w : Z) (self : Intention)
| EnrichRun (runner : string -> result string)
            (self : Intention) (j : Job) (lg : list Handler)
| EnrichArchive (s : status) (self : Intention).

(** The store a call leaves behind. *)
Definition exec (c : call) (st : Store) : Store :=
  match c with
  | RawNextJob w now => snd (IGLRaw.next_job w now st)
  | RawCreatePrevious self => snd (IGLRaw.create_previous self st)
  | RawRunningJob self => snd (IGLRaw.running_job self st)
  | RawCreateJob w self => snd (IGLRaw.create_job w self st)
  | RawRun runner now0 now1 self j lg =>
      snd (fst (IGLRaw.run runner now0 now1 self j st lg))
  | RawArchive s self => IGLRaw.archive s self st
  | EnrichNextJob w => snd (IGLEnrich.next_job w st)
  | EnrichCreatePrevious now self =>
      snd (IGLEnrich.create_previous now self st)
  | EnrichRunningJob self => snd (IGLEnrich.running_job self st)
  | EnrichCreateJob w self => snd (IGLEnrich.create_job w self st)
  | EnrichRun runner self j lg =>
      snd (fst (IGLEnrich.run runner self j st lg))
  | EnrichArchive s self => IGLEnrich.archive s self st
  end.

(** The store after a sequence of calls. *)
Definition exec_all (cs : list call) (st : Store) : Store :=
  fold_left (fun s c => exec c s) cs st.

(** ** Predicates of the statements *)

(** Intention [i] has job [r] attached, and [r] is a row of the job table
    with no worker. *)
Definition attached_unclaimed (st : Store) (i : Intention) (r : Job) : Prop :=
  job i = Some (job_id r) /\ get_job st (job_id r) = Some r /\ worker r = None.

(** Some token attached to job [j] is past its [reset] at [now]. *)
Definition token_past_reset (st : Store) (now : Z) (j : Z) : Prop :=
  exists t, In t (gltokens st)
            /\ In (token_id t, j) (gltoken_jobs st)
            /\ reset t < now.

(** The worker recorded for job [j], if the row exists and has one. *)
Definition worker_of (st : Store) (j : Z) : option Z :=
  match get_job st j with
  | Some r => worker r
  | None => None
  end.

(** The row of the token table with key [t]. *)
Definition get_token (st : Store) (t : Z) : option GLToken :=
  find (fun r => token_id r =? t) (gltokens st).

(** ** Concrete data for the examples *)

Module Sample.

Definition gitlab : GLInstance := mkGLInstance "GitLab" "https://gitlab.com".

Definition repo1 : GLRepo := mkGLRepo 1 "owner" "one" (Some gitlab).
Definition repo2 : GLRepo := mkGLRepo 2 "owner" "two" (Some gitlab).
Definition repo3 : GLRepo := mkGLRepo 3 "owner" "three" (Some gitlab).
Definition repo4 : GLRepo := mkGLRepo 4 "owner" "four" (Some gitlab).
(** A repository row whose [instance] is left at its default. *)
Definition repo5 : GLRepo := mkGLRepo 5 "owner" "five" None.

(** Some instant of the year 2025, and later ones. *)
Definition t0 : Z := 63900000000000000.
Definition t1 : Z := t0 + 60 * MINUTE.
Definition t2 : Z := t0 + 90 * MINUTE.

Definition token1 : GLToken := mkGLToken 1 "token-of-user-1" t0 (Some 1).
Definition token2 : GLToken := mkGLToken 2 "token-of-user-2" t0 (Some 2).

(** One raw intention with a waiting job that holds [token1]. *)
Definition raw1 : Intention := mkIntention 1 1 repo1 (Some 1) t0.
Definition job1 : Job := mkJob 1 None.

Definition st_run : Store :=
  mkStore [job1] 2 [token1] [(1, 1)] [raw1] [] 2 [] [] [].

Definition returns (n : Z) : string -> string -> result Z :=
  fun _ _ => Ok n.

Definition raises : string -> string -> result Z :=
  fun _ _ => Raise RunnerError.

(** One enrich intention with a job. *)
Definition enrich1 : Intention := mkIntention 1 1 repo1 (Some 1) t0.
Definition enrich5 : Intention := mkIntention 1 1 repo5 (Some 1) t0.

Definition st_enrich : Store :=
  mkStore [job1] 2 [] [] [] [enrich1] 2 [] [] [].

(** Two raw intentions of two users on one repository: the first
    has a job, the second has none yet, and the token of its user is
    not past its reset before [t2]. *)
Definition token_late : GLToken := mkGLToken 3 "token-of-user-1" t2 (Some 1).
Definition rawA : Intention := mkIntention 1 2 repo1 (Some 1) t0.
Definition rawB : Intention := mkIntention 2 1 repo1 None t0.

Definition st_share : Store :=
  mkStore [job1] 2 [token_late] [] [rawA; rawB] [] 3 [] [] [].

(** The only intention on a repository, already with a job. *)
Definition st_alone : Store :=
  mkStore [job1] 2 [] [] [rawA] [] 2 [] [] [].

(** An enrich intention without a job, on the repository of another
    one whose job waits for a worker. *)
Definition enrichA : Intention := mkIntention 1 2 repo1 (Some 1) t0.
Definition enrichB : Intention := mkIntention 2 1 repo1 None t0.

Definition st_dep : Store :=
  mkStore [job1] 2 [] [] [] [enrichA; enrichB] 3 [] [] [].

(** Five raw intentions without jobs: three of user 1 on three
    repositories, then one of user 2 and one of user 1 on a fourth. *)
Definition token_a : GLToken := mkGLToken 1 "token-of-user-1" t0 (Some 1).
Definition token_b : GLToken := mkGLToken 2 "token-of-user-2" t0 (Some 2).
Definition i1 : Intention := mkIntention 1 1 repo1 None t0.
Definition i2 : Intention := mkIntention 2 1 repo2 None t0.
Definition i3 : Intention := mkIntention 3 1 repo3 None t0.
Definition i4 : Intention := mkIntention 4 2 repo4 None t0.
Definition i5 : Intention := mkIntention 5 1 repo4 None t0.

Definition st_cap : Store :=
  mkStore [] 1 [token_a; token_b] [] [i1; i2; i3; i4; i5] [] 6 [] [] [].

(** What a worker does with a selected intention that finds no running
    job: [create_job], then [save] of the intention. *)
Definition create_and_save (w : Z) (self : Intention) (st : Store)
  : Store :=
  let '(_, self', st') := IGLRaw.create_job w self st in
  save_raw self' st'.

(** The store once [i1], [i2] and [i4] have their jobs, and once [i3]
    has its job too. *)
Definition st_sel : Store :=
  create_and_save 7 i4 (create_and_save 7 i2 (create_and_save 7 i1 st_cap)).

Definition st_full : Store := create_and_save 7 i3 st_sel.

End Sample.

(** Every job that has a worker in [st] has the same worker in [st']. *)
Definition keeps_workers (st st' : Store) : Prop :=
  forall j w, worker_of st j = Some w -> worker_of st' j = Some w.

(** No token is attached to more jobs than [MAX_JOBS_TOKEN]. *)
Definition within_cap (st : Store) : Prop :=
  forall t, jobs_count st t <= MAX_JOBS_TOKEN.

(** ** Predicates of the further statements *)

(** Token [t] of user [u] can take one more job and is past its reset:
    what [selectable_intentions] asks of some token of the user. *)
Definition token_available (st : Store) (now u : Z) (t : GLToken) : Prop :=
  In t (gltokens st) /\ token_user t = Some u
  /\ jobs_count st (token_id t) < MAX_JOBS_TOKEN /\ reset t < now.

(** Intention [i] of user [u] has no prerequisite left and no job. *)
Definition ready_for (st : Store) (u : Z) (i : Intention) : Prop :=
  (forall q, ~ In (pk i, q) (previous st)) /\ user i = u /\ job i = None.

(** The job that [IGLRaw.create_job] attaches tokens to: the job of the
    intention, or the one it is about to create. *)
Definition target_job (self : Intention) (st : Store) : Z :=
  match job self with
  | Some j => j
  | None => next_job_id st
  end.

(** The keys of the job table are distinct and below the next key of the
    sequence. *)
Definition jobs_keyed (st : Store) : Prop :=
  NoDup (map job_id (jobs st))
  /\ forall r, In r (jobs st) -> job_id r < next_job_id st.

(** ** users.py: UserManager *)

Module UserManager.

(** The rows of the base table of intentions that the models at hand can
    write: those of [IGLRaw] and of [IGLEnrich]. *)
Definition intentions (st : Store) : list Intention :=
  iglraw st ++ iglenrich st.

(** [filter(intention__previous=None, intention__job=None)]: both
    conditions are tests for NULL through outer joins on one intention,
    so a user passes with an intention that has neither a job nor a
    previous intention, and also with no intention at all (the TODO of
    the source). *)
Definition passes (st : Store) (u : Z) : bool :=
  match filter (fun i => user i =? u) (intentions st) with
  | [] => true
  | mine =>
      existsb (fun i => previous_empty st (pk i) && negb (has_job i)) mine
  end.

(** [[q[i] for i in indices]]; [None] is the [IndexError] of an index
    out of range. *)
Fixpoint pick (q : list Z) (indices : list nat) : option (list Z) :=
  match indices with
  | [] => Some []
  | i :: indices' =>
      match nth_error q i, pick q indices' with
      | Some u, Some us => Some (u :: us)
      | _, _ => None
      end
  end.

(** [random_user_ready(max)] over the user table [users];
    [sample n k] is [random.sample(range(n), k)]. *)
Definition random_user_ready (sample : nat -> nat -> list nat)
  (users : list Z) (max : nat) (st : Store) : option (list Z) :=
  let q := filter (passes st) users in
  let count := List.length q in
  pick q (sample count (Nat.min max count)).

End UserManager.

(** Raw intention [i] is the prerequisite of [self]: the key of
    [get_or_create(repo=self.repo, user=self.user)]. *)
Definition raw_for (self i : Intention) : Prop :=
  repo_id (irepo i) = repo_id (irepo self) /\ user i = user self.

(** ** The steps of a worker

    Besides the calls of the module, a worker saves the intention that
    [create_job] gave a job to: [create_job] assigns the job to the
    object only. *)








(** ** Theorems *)

(** C7 (as the code has it): [GLToken.is_ready] holds exactly when the
    current time is strictly later than the token's [reset]. *)
Theorem is_ready_iff_strictly_after (now : Z) (t : GLToken) :
  is_ready now t = true <-> now > reset t.
Proof.
  unfold is_ready. rewrite Z.ltb_lt. lia.
Qed.

(** C7, counterexample: at the very instant of [reset] the current time
    is greater than or equal to [reset], and the token is not ready. *)
Lemma is_ready_not_at_reset :
  let t := mkGLToken 1 "s3cr3t" 1000 (Some 1) in
  1000 >= reset t /\ is_ready 1000 t = false.
Proof.
  split; [simpl; lia | reflexivity].
Qed.

(** *** Lookups and through tables *)

Lemma pair_eqb_eq (p q : Z * Z) : pair_eqb p q = true <-> p = q.
Proof.
  destruct p as [a b], q as [c d]. unfold pair_eqb. simpl.
  rewrite andb_true_iff, !Z.eqb_eq. split.
  - intros [-> ->]. reflexivity.
  - intros H. inversion H. auto.
Qed.

Lemma has_pair_In (p : Z * Z) (l : list (Z * Z)) :
  has_pair p l = true <-> In p l.
Proof.
  unfold has_pair. rewrite existsb_exists. split.
  - intros [q [Hq He]]. apply pair_eqb_eq in He. subst. exact Hq.
  - intros H. exists p. split; [exact H | now apply pair_eqb_eq].
Qed.

Lemma In_m2m_add (p q : Z * Z) (l : list (Z * Z)) :
  In q (m2m_add p l) <-> In q l \/ q = p.
Proof.
  unfold m2m_add. destruct (has_pair p l) eqn:E.
  - apply has_pair_In in E. split; [auto | intros [H | ->]; assumption].
  - rewrite in_app_iff. simpl. intuition.
Qed.

Lemma get_job_id (st : Store) (j : Z) (r : Job) :
  get_job st j = Some r -> job_id r = j /\ In r (jobs st).
Proof.
  unfold get_job. intros H. apply find_some in H. destruct H as [Hin He].
  apply Z.eqb_eq in He. auto.
Qed.

Lemma find_save_job (r : Job) (l : list Job) :
  find (fun x => job_id x =? job_id r) (save_job r l) = Some r.
Proof.
  induction l as [| x l IH]; simpl.
  - now rewrite Z.eqb_refl.
  - destruct (job_id x =? job_id r) eqn:E; simpl.
    + now rewrite Z.eqb_refl.
    + now rewrite E.
Qed.

Lemma find_save_job_other (r : Job) (l : list Job) (j : Z) :
  j <> job_id r ->
  find (fun x => job_id x =? j) (save_job r l)
  = find (fun x => job_id x =? j) l.
Proof.
  intros Hne. induction l as [| x l IH]; simpl.
  - destruct (job_id r =? j) eqn:E; [apply Z.eqb_eq in E; congruence | easy].
  - destruct (job_id x =? job_id r) eqn:E; simpl.
    + apply Z.eqb_eq in E.
      destruct (job_id r =? j) eqn:E1; [apply Z.eqb_eq in E1; congruence |].
      destruct (job_id x =? j) eqn:E2; [apply Z.eqb_eq in E2; congruence |].
      reflexivity.
    + destruct (job_id x =? j); [reflexivity | exact IH].
Qed.

Lemma related_job_attached (st : Store) (i : Intention) (r : Job) :
  related_job st i = Some r ->
  job i = Some (job_id r) /\ get_job st (job_id r) = Some r.
Proof.
  unfold related_job. destruct (job i) as [j |]; [| discriminate].
  intros H. destruct (get_job_id _ _ H) as [<- _]. auto.
Qed.

Lemma attached_related_job (st : Store) (i : Intention) (r : Job) :
  job i = Some (job_id r) -> get_job st (job_id r) = Some r ->
  related_job st i = Some r.
Proof.
  unfold related_job. intros -> H. exact H.
Qed.

Lemma token_reset_before_iff (st : Store) (now j : Z) :
  token_reset_before st now j = true <-> token_past_reset st now j.
Proof.
  unfold token_reset_before, token_past_reset. rewrite existsb_exists.
  split; intros [t [Hin H]]; exists t.
  - apply andb_true_iff in H. destruct H as [Hp Hr].
    apply has_pair_In in Hp. apply Z.ltb_lt in Hr. auto.
  - destruct H as [Hp Hr]. split; [exact Hin |].
    apply andb_true_iff. split; [now apply has_pair_In | now apply Z.ltb_lt].
Qed.

Lemma no_worker_iff (r : Job) : no_worker r = true <-> worker r = None.
Proof.
  unfold no_worker. destruct (worker r); split; congruence.
Qed.

(** *** next_job *)

Lemma raw_waiting_iff (st : Store) (now : Z) (i : Intention) :
  IGLRaw.waiting st now i = true <->
  exists r, attached_unclaimed st i r /\ token_past_reset st now (job_id r).
Proof.
  unfold IGLRaw.waiting, attached_unclaimed. split.
  - destruct (related_job st i) as [r |] eqn:E; [| discriminate].
    intros H. apply andb_true_iff in H. destruct H as [Hw Ht].
    apply related_job_attached in E. destruct E as [Hj Hg].
    exists r. rewrite <- token_reset_before_iff, <- no_worker_iff. auto.
  - intros [r [[Hj [Hg Hw]] Ht]].
    rewrite (attached_related_job _ _ Hj Hg).
    apply andb_true_iff. split.
    + now apply no_worker_iff.
    + now apply token_reset_before_iff.
Qed.

Lemma enrich_waiting_iff (st : Store) (i : Intention) :
  IGLEnrich.waiting st i = true <-> exists r, attached_unclaimed st i r.
Proof.
  unfold IGLEnrich.waiting, attached_unclaimed. split.
  - destruct (related_job st i) as [r |] eqn:E; [| discriminate].
    intros H. apply related_job_attached in E. destruct E as [Hj Hg].
    exists r. rewrite <- no_worker_iff. auto.
  - intros [r [Hj [Hg Hw]]].
    rewrite (attached_related_job _ _ Hj Hg). now apply no_worker_iff.
Qed.

Lemma raw_next_job_cases (w now : Z) (st : Store) :
  match IGLRaw.next_job w now st with
  | (Some j, st') =>
      exists i r,
        In i (iglraw st) /\ attached_unclaimed st i r
        /\ token_past_reset st now (job_id r)
        /\ j = mkJob (job_id r) (Some w)
        /\ st' = set_jobs st (save_job j (jobs st)) (next_job_id st)
        /\ get_job st' (job_id j) = Some j
  | (None, st') =>
      st' = st
      /\ ~ exists i r,
             In i (iglraw st) /\ attached_unclaimed st i r
             /\ token_past_reset st now (job_id r)
  end.
Proof.
  unfold IGLRaw.next_job.
  destruct (find (IGLRaw.waiting st now) (iglraw st)) as [i |] eqn:F.
  - apply find_some in F. destruct F as [Hin Hw].
    pose proof Hw as Hw'. apply raw_waiting_iff in Hw'.
    destruct Hw' as [r [Ha Ht]].
    destruct Ha as [Hj [Hg Hn]].
    rewrite (attached_related_job _ _ Hj Hg). unfold assign_worker.
    exists i, r. repeat split; try assumption.
    unfold get_job. simpl. apply (find_save_job (mkJob (job_id r) (Some w))).
  - split; [reflexivity |]. intros [i [r [Hin [Ha Ht]]]].
    pose proof (find_none _ _ F i Hin) as Hf.
    assert (IGLRaw.waiting st now i = true)
      by (apply raw_waiting_iff; exists r; auto).
    congruence.
Qed.

Lemma enrich_next_job_cases (w : Z) (st : Store) :
  match IGLEnrich.next_job w st with
  | (Some j, st') =>
      exists i r,
        In i (iglenrich st) /\ attached_unclaimed st i r
        /\ j = mkJob (job_id r) (Some w)
        /\ st' = set_jobs st (save_job j (jobs st)) (next_job_id st)
        /\ get_job st' (job_id j) = Some j
  | (None, st') =>
      st' = st
      /\ ~ exists i r, In i (iglenrich st) /\ attached_unclaimed st i r
  end.
Proof.
  unfold IGLEnrich.next_job.
  destruct (find (IGLEnrich.waiting st) (iglenrich st)) as [i |] eqn:F.
  - apply find_some in F. destruct F as [Hin Hw].
    pose proof Hw as Hw'. apply enrich_waiting_iff in Hw'.
    destruct Hw' as [r Ha]. destruct Ha as [Hj [Hg Hn]].
    rewrite (attached_related_job _ _ Hj Hg). unfold assign_worker.
    exists i, r. repeat split; try assumption.
    unfold get_job. simpl. apply (find_save_job (mkJob (job_id r) (Some w))).
  - split; [reflexivity |]. intros [i [r [Hin Ha]]].
    pose proof (find_none _ _ F i Hin) as Hf.
    assert (IGLEnrich.waiting st i = true)
      by (apply enrich_waiting_iff; exists r; auto).
    congruence.
Qed.

(** C3: [next_job] returns a job exactly when some intention of its table
    has a job attached that has no worker (and, for [IGLRaw] only, that
    holds a token past its reset); it then returns that job with the
    calling worker assigned and saved in the job table, nothing else in
    the store being touched; otherwise it returns nothing and leaves the
    store as it was.  [IGLEnrich.next_job] does the same without the
    condition on tokens. *)
Theorem next_job_claims_waiting_job (w now : Z) (st : Store) :
  match IGLRaw.next_job w now st with
  | (Some j, st') =>
      exists i r,
        In i (iglraw st) /\ attached_unclaimed st i r
        /\ token_past_reset st now (job_id r)
        /\ j = mkJob (job_id r) (Some w)
        /\ st' = set_jobs st (save_job j (jobs st)) (next_job_id st)
        /\ get_job st' (job_id j) = Some j
  | (None, st') =>
      st' = st
      /\ ~ exists i r,
             In i (iglraw st) /\ attached_unclaimed st i r
             /\ token_past_reset st now (job_id r)
  end
  /\
  match IGLEnrich.next_job w st with
  | (Some j, st') =>
      exists i r,
        In i (iglenrich st) /\ attached_unclaimed st i r
        /\ j = mkJob (job_id r) (Some w)
        /\ st' = set_jobs st (save_job j (jobs st)) (next_job_id st)
        /\ get_job st' (job_id j) = Some j
  | (None, st') =>
      st' = st
      /\ ~ exists i r, In i (iglenrich st) /\ attached_unclaimed st i r
  end.
Proof.
  split; [apply raw_next_job_cases | apply enrich_next_job_cases].
Qed.

(** *** The log handler around a run *)

Lemma fresh_uid_above (l : list Handler) (x : Handler) :
  In x l -> handler_uid x < fresh_uid l.
Proof.
  unfold fresh_uid. induction l as [| y l IH]; [easy |].
  cbn [fold_right map In].
  intros [-> | H]; [lia |]. specialize (IH H). lia.
Qed.

Lemma fresh_not_registered (j : Z) (l : list Handler) :
  existsb (fun x => handler_uid x =? handler_uid (file_formatter j l)) l
  = false.
Proof.
  destruct (existsb _ l) eqn:E; [| reflexivity].
  apply existsb_exists in E. destruct E as [x [Hin He]].
  apply Z.eqb_eq in He. apply fresh_uid_above in Hin. simpl in He. lia.
Qed.

Lemma removeHandler_last (h : Handler) (l : list Handler) :
  existsb (fun x => handler_uid x =? handler_uid h) l = false ->
  removeHandler h (l ++ [h]) = l.
Proof.
  induction l as [| x l IH]; simpl.
  - now rewrite Z.eqb_refl.
  - intros H. apply orb_false_iff in H. destruct H as [Hx Hl].
    rewrite Hx. now rewrite IH.
Qed.

Lemma attach_detach (j : Z) (l : list Handler) :
  removeHandler (file_formatter j l) (addHandler (file_formatter j l) l) = l.
Proof.
  unfold addHandler. rewrite fresh_not_registered.
  apply removeHandler_last, fresh_not_registered.
Qed.

Lemma attached_while_running (j : Z) (l : list Handler) :
  holds_handler (file_formatter j l) (addHandler (file_formatter j l) l)
  = true.
Proof.
  unfold addHandler, holds_handler. rewrite fresh_not_registered.
  rewrite existsb_app. simpl. rewrite Z.eqb_refl.
  now rewrite orb_true_r.
Qed.

(** Whatever the runner does, [IGLRaw.run] leaves the handlers of the
    global logger as it found them. *)
Lemma raw_run_restores_logger
  (GitLabRaw : string -> string -> result Z) (now0 now1 : Z)
  (self : Intention) (j : Job) (st : Store) (lg : list Handler) :
  snd (IGLRaw.run GitLabRaw now0 now1 self j st lg) = lg.
Proof.
  unfold IGLRaw.run.
  destruct (IGLRaw.ready_token st now0 j) as [tok |]; [| reflexivity].
  cbv zeta. rewrite attach_detach.
  repeat match goal with
         | |- context [if ?b then _ else _] => destruct b
         | |- context [match ?x with Ok _ => _ | Raise _ => _ end] =>
             destruct x
         end; reflexivity.
Qed.

(** [IGLEnrich.run] does so when the runner returns. *)
Lemma enrich_run_restores_logger_on_return
  (GitLabEnrich : string -> result string)
  (self : Intention) (j : Job) (st : Store) (lg : list Handler)
  (u output : string) :
  url (irepo self) = Ok u -> GitLabEnrich u = Ok output ->
  snd (IGLEnrich.run GitLabEnrich self j st lg) = lg.
Proof.
  intros Hu Hr. unfold IGLEnrich.run. rewrite Hu, Hr. cbv zeta.
  rewrite attach_detach. destruct (negb _); reflexivity.
Qed.

(** C9, at the failing inputs: when the runner of [IGLEnrich.run] raises,
    and likewise when the repository has no instance so that building its
    URL raises, the exception leaves [run] with the handler of the job
    still registered on the global logger, which held none before. *)
Theorem enrich_run_exception_keeps_handler :
  IGLEnrich.run (fun _ => Raise RunnerError)
                Sample.enrich1 Sample.job1 Sample.st_enrich []
  = (Raise RunnerError, Sample.st_enrich, [mkHandler 1 1])
  /\
  IGLEnrich.run (fun _ => Ok EmptyString)
                Sample.enrich5 Sample.job1 Sample.st_enrich []
  = (Raise AttributeError, Sample.st_enrich, [mkHandler 1 1]).
Proof.
  split; reflexivity.
Qed.

(** *** IGLRaw.run *)

Lemma reset_representable (now n : Z) :
  0 <= now <= DATETIME_MAX -> 0 <= now + n * MINUTE <= DATETIME_MAX ->
  timedelta_minutes n = Ok (n * MINUTE)
  /\ datetime_add now (n * MINUTE) = Ok (now + n * MINUTE).
Proof.
  unfold timedelta_minutes, datetime_add, DATETIME_MAX, DAY, MINUTE.
  intros Hnow Hr. split.
  - assert (H : (-999999999 <=? n * 60000000 / 86400000000)
                && (n * 60000000 / 86400000000 <=? 999999999) = true).
    { apply andb_true_iff. split; apply Z.leb_le.
      - apply Z.div_le_lower_bound; lia.
      - apply Z.lt_succ_r, Z.div_lt_upper_bound; lia. }
    cbv zeta. now rewrite H.
  - assert (H : (0 <=? now + n * 60000000)
                && (now + n * 60000000 <=? 3652059 * 86400000000 - 1) = true).
    { apply andb_true_iff. split; apply Z.leb_le; lia. }
    now rewrite H.
Qed.

Lemma find_save_token (r : GLToken) (l : list GLToken) :
  find (fun x => token_id x =? token_id r) (save_token r l) = Some r.
Proof.
  induction l as [| x l IH]; simpl.
  - now rewrite Z.eqb_refl.
  - destruct (token_id x =? token_id r) eqn:E; simpl.
    + now rewrite Z.eqb_refl.
    + now rewrite E.
Qed.

(** C2 (as the code has it): for a raw intention whose job holds a ready
    token and whose repository has a URL, [IGLRaw.run] reads the output
    of the runner as follows.  Output 0: success, [run] returns true and
    the store is untouched.  Output 1, and any exception of the runner:
    hard failure, [Job.StopException] is raised and the store is
    untouched.  Any other output N whose retry time, now + N minutes, is a
    [datetime]: soft failure, [run] returns false without raising, the
    token it used is saved with [reset] = now + N minutes, and the
    intention tables, the jobs and the attachments of tokens to jobs are
    as before, so the intention keeps its job.  Any other output whose
    retry time is outside the range of [datetime]: [OverflowError] leaves
    [run], the store untouched.  In every case the handlers of the logger
    are those of before. *)
Theorem raw_run_interprets_output
  (GitLabRaw : string -> string -> result Z) (now0 now1 : Z)
  (self : Intention) (j : Job) (st : Store) (lg : list Handler)
  (tok : GLToken) (u : string)
  (Htok : IGLRaw.ready_token st now0 j = Some tok)
  (Hurl : url (irepo self) = Ok u)
  (Hnow : 0 <= now1 <= DATETIME_MAX) :
  (GitLabRaw u (token tok) = Ok 0 ->
   IGLRaw.run GitLabRaw now0 now1 self j st lg = (Ok true, st, lg))
  /\
  (GitLabRaw u (token tok) = Ok 1
   \/ (exists e, GitLabRaw u (token tok) = Raise e) ->
   IGLRaw.run GitLabRaw now0 now1 self j st lg
   = (Raise StopException, st, lg))
  /\
  (forall n : Z,
      GitLabRaw u (token tok) = Ok n -> n <> 0 -> n <> 1 ->
      0 <= now1 + n * MINUTE <= DATETIME_MAX ->
      let tok' := IGLRaw.with_reset tok (now1 + n * MINUTE) in
      let st' := set_gltokens st (save_token tok' (gltokens st)) in
      IGLRaw.run GitLabRaw now0 now1 self j st lg = (Ok false, st', lg)
      /\ get_token st' (token_id tok) = Some tok'
      /\ reset tok' = now1 + n * MINUTE
      /\ iglraw st' = iglraw st /\ iglenrich st' = iglenrich st
      /\ jobs st' = jobs st /\ gltoken_jobs st' = gltoken_jobs st)
  /\
  (forall n : Z,
      GitLabRaw u (token tok) = Ok n -> n <> 0 -> n <> 1 ->
      ~ 0 <= now1 + n * MINUTE <= DATETIME_MAX ->
      IGLRaw.run GitLabRaw now0 now1 self j st lg
      = (Raise OverflowError, st, lg)).
Proof.
  unfold IGLRaw.run. rewrite Htok, Hurl. cbv zeta.
  rewrite attach_detach.
  split; [| split; [| split]].
  - intros ->. reflexivity.
  - intros [-> | [e ->]]; reflexivity.
  - intros n -> Hn0 Hn1 Hr.
    destruct (reset_representable n Hnow Hr) as [Htd Hadd].
    apply Z.eqb_neq in Hn0, Hn1. rewrite Hn1, Hn0, Htd, Hadd. simpl negb.
    cbv iota. repeat split.
    unfold get_token. simpl.
    apply (find_save_token (IGLRaw.with_reset tok (now1 + n * MINUTE))).
  - intros n -> Hn0 Hn1 Hr.
    apply Z.eqb_neq in Hn0, Hn1. rewrite Hn1, Hn0. simpl negb. cbv iota.
    unfold timedelta_minutes. cbv zeta.
    destruct (_ && _); [| reflexivity].
    unfold datetime_add.
    destruct ((0 <=? now1 + n * MINUTE)
              && (now1 + n * MINUTE <=? DATETIME_MAX)) eqn:E; [| reflexivity].
    apply andb_true_iff in E. destruct E as [E1 E2].
    apply Z.leb_le in E1, E2. destruct Hr. split; assumption.
Qed.

(** C2, witness: a runner output of 30 at [Sample.st_run]. *)
Lemma raw_run_interprets_output_witness :
  IGLRaw.ready_token Sample.st_run Sample.t1 Sample.job1 = Some Sample.token1
  /\ fst (fst (IGLRaw.run (Sample.returns 30) Sample.t1 Sample.t2
                          Sample.raw1 Sample.job1 Sample.st_run []))
     = Ok false.
Proof.
  split; [reflexivity |].
  assert (Hnow : 0 <= Sample.t2 <= DATETIME_MAX) by (vm_compute; split; discriminate).
  destruct (raw_run_interprets_output (Sample.returns 30) Sample.t1
              Sample.raw1 Sample.job1 Sample.st_run []
              (tok := Sample.token1)
              (u := "https://gitlab.com/owner/one"%string)
              eq_refl eq_refl Hnow) as [_ [_ [H _]]].
  destruct (H 30 eq_refl) as [Hrun _];
    [discriminate | discriminate | vm_compute; split; discriminate |].
  rewrite Hrun. reflexivity.
Defined.

(** C2, counterexample: the positive output 1 is a hard failure, not a
    retry after one minute; the non-zero output -5 is not a hard failure
    but a retry whose [reset] lies five minutes in the past; and the
    positive output 10^10 ends in [OverflowError]. *)
Lemma raw_run_one_stops_negative_retries :
  IGLRaw.run (Sample.returns 1) Sample.t1 Sample.t2
             Sample.raw1 Sample.job1 Sample.st_run []
  = (Raise StopException, Sample.st_run, [])
  /\
  IGLRaw.run (Sample.returns (-5)) Sample.t1 Sample.t2
             Sample.raw1 Sample.job1 Sample.st_run []
  = (Ok false,
     set_gltokens Sample.st_run
       [IGLRaw.with_reset Sample.token1 (Sample.t2 - 5 * MINUTE)],
     [])
  /\
  IGLRaw.run (Sample.returns 10000000000) Sample.t1 Sample.t2
             Sample.raw1 Sample.job1 Sample.st_run []
  = (Raise OverflowError, Sample.st_run, []).
Proof.
  repeat split; vm_compute; reflexivity.
Qed.

(** *** running_job *)

Lemma user_is_iff (u : Z) (t : GLToken) :
  user_is u t = true <-> token_user t = Some u.
Proof.
  unfold user_is. destruct (token_user t) as [v |].
  - rewrite Z.eqb_eq. split; congruence.
  - split; discriminate.
Qed.

Lemma attach_all_frame (j : Z) (ts : list GLToken) (st : Store) :
  let st' := fold_left (fun s t => token_jobs_add t j s) ts st in
  jobs st' = jobs st /\ next_job_id st' = next_job_id st
  /\ gltokens st' = gltokens st /\ iglraw st' = iglraw st
  /\ iglenrich st' = iglenrich st
  /\ next_intention_id st' = next_intention_id st
  /\ previous st' = previous st
  /\ iglraw_archived st' = iglraw_archived st
  /\ iglenrich_archived st' = iglenrich_archived st.
Proof.
  revert st. induction ts as [| t ts IH]; intros st; simpl.
  - repeat split.
  - specialize (IH (token_jobs_add t j st)). simpl in IH. exact IH.
Qed.

Lemma attach_all_pairs (j : Z) (ts : list GLToken) (st : Store) (p : Z * Z) :
  In p (gltoken_jobs (fold_left (fun s t => token_jobs_add t j s) ts st))
  <-> In p (gltoken_jobs st) \/ exists t, In t ts /\ p = (token_id t, j).
Proof.
  revert st. induction ts as [| t ts IH]; intros st; simpl.
  - split; [auto | intros [H | [t [[] _]]]; exact H].
  - rewrite IH. unfold token_jobs_add at 1. simpl. rewrite In_m2m_add.
    split.
    + intros [[H | ->] | [t' [Hin ->]]]; eauto.
    + intros [H | [t' [[-> | Hin] ->]]]; eauto.
Qed.

Lemma candidates_none (same : Intention -> bool) (l : list Intention) :
  filter (fun i => same i && has_job i) l = [] ->
  forall i, In i l -> same i = true -> job i = None.
Proof.
  intros Hf i Hin Hs. destruct (job i) as [j |] eqn:E; [| reflexivity].
  assert (Hi : In i (filter (fun i => same i && has_job i) l)).
  { apply filter_In. split; [exact Hin |]. unfold has_job. now rewrite Hs, E. }
  rewrite Hf in Hi. destruct Hi.
Qed.

Lemma candidates_head (same : Intention -> bool) (l : list Intention)
  (c : Intention) (rest : list Intention) :
  filter (fun i => same i && has_job i) l = c :: rest ->
  In c l /\ same c = true /\ exists j, job c = Some j.
Proof.
  intros Hf.
  assert (Hc : In c (filter (fun i => same i && has_job i) l))
    by (rewrite Hf; now left).
  apply filter_In in Hc. destruct Hc as [Hin Hb].
  apply andb_true_iff in Hb. destruct Hb as [Hs Hj].
  unfold has_job in Hj. destruct (job c) as [j |]; [eauto | discriminate].
Qed.

Lemma filter_head_split (A : Type) (f : A -> bool) (l : list A) (c : A)
  (rest : list A) :
  filter f l = c :: rest ->
  exists l1 l2, l = l1 ++ c :: l2 /\ f c = true
                /\ forall y, In y l1 -> f y = false.
Proof.
  induction l as [| x l IH]; simpl; [discriminate |].
  destruct (f x) eqn:E.
  - intros H. inversion H. subst. exists [], l.
    split; [reflexivity |]. split; [exact E | intros y []].
  - intros H. destruct (IH H) as [l1 [l2 [-> [Hc Hl]]]].
    exists (x :: l1), l2. split; [reflexivity |]. split; [exact Hc |].
    intros y [<- | Hy]; [exact E | now apply Hl].
Qed.

Lemma first_candidate (self : Intention) (l : list Intention) (c : Intention)
  (rest : list Intention) :
  filter (fun i => same_repo (irepo i) (irepo self) && has_job i) l
  = c :: rest ->
  exists before after j,
    l = before ++ c :: after
    /\ repo_id (irepo c) = repo_id (irepo self) /\ job c = Some j
    /\ forall i, In i before ->
                 repo_id (irepo i) = repo_id (irepo self) -> job i = None.
Proof.
  intros F. destruct (filter_head_split _ _ F) as [l1 [l2 [Hl [Hc Hb]]]].
  apply andb_true_iff in Hc. destruct Hc as [Hs Hj].
  apply Z.eqb_eq in Hs. unfold has_job in Hj.
  destruct (job c) as [j |] eqn:J; [| discriminate].
  exists l1, l2, j. repeat split; try assumption.
  intros i Hi Hr. specialize (Hb i Hi). simpl in Hb.
  unfold same_repo in Hb. apply Z.eqb_eq in Hr. rewrite Hr in Hb.
  unfold has_job in Hb. simpl in Hb. now destruct (job i).
Qed.

(** C5 (as the code has it): [running_job] scans the live intentions of
    its table on the repository of the current one (its own row not
    excluded).  When one has a job, the job of the first such row in the
    order of the table is assigned to the current intention, which is
    saved, and that job is returned.  [IGLRaw.running_job] then attaches
    tokens of the current user to the job, and nothing but those: every
    token of the user that holds fewer than [MAX_JOBS_TOKEN] jobs is
    attached, whether or not it is past its reset; no attachment is
    removed and nothing else changes.  When no row has a job, nothing is
    returned and neither the intention nor the store changes.  (A job
    key with no job row raises [DoesNotExist], nothing changed.) *)
Theorem running_job_shares_job (self : Intention) (st : Store) :
  match IGLRaw.running_job self st with
  | (Ok (Some r), self', st') =>
      (exists before c after,
          iglraw st = before ++ c :: after
          /\ repo_id (irepo c) = repo_id (irepo self)
          /\ job c = Some (job_id r)
          /\ forall i, In i before ->
               repo_id (irepo i) = repo_id (irepo self) -> job i = None)
      /\ get_job st (job_id r) = Some r
      /\ self' = with_job self (Some (job_id r))
      /\ iglraw st' = save_intention self' (iglraw st)
      /\ (forall p, In p (gltoken_jobs st) -> In p (gltoken_jobs st'))
      /\ (forall p, In p (gltoken_jobs st') ->
                    In p (gltoken_jobs st)
                    \/ exists t, In t (gltokens st)
                                 /\ token_user t = Some (user self)
                                 /\ p = (token_id t, job_id r))
      /\ (forall t, In t (gltokens st) ->
                    token_user t = Some (user self) ->
                    jobs_count st (token_id t) < MAX_JOBS_TOKEN ->
                    In (token_id t, job_id r) (gltoken_jobs st'))
      /\ jobs st' = jobs st /\ gltokens st' = gltokens st
      /\ iglenrich st' = iglenrich st /\ previous st' = previous st
  | (Ok None, self', st') =>
      self' = self /\ st' = st
      /\ forall i, In i (iglraw st) ->
                   repo_id (irepo i) = repo_id (irepo self) -> job i = None
  | (Raise e, self', st') =>
      self' = self /\ st' = st /\ e = DoesNotExist
      /\ exists before c after j,
           iglraw st = before ++ c :: after
           /\ repo_id (irepo c) = repo_id (irepo self)
           /\ job c = Some j /\ get_job st j = None
           /\ forall i, In i before ->
                repo_id (irepo i) = repo_id (irepo self) -> job i = None
  end
  /\
  match IGLEnrich.running_job self st with
  | (Ok (Some r), self', st') =>
      (exists before c after,
          iglenrich st = before ++ c :: after
          /\ repo_id (irepo c) = repo_id (irepo self)
          /\ job c = Some (job_id r)
          /\ forall i, In i before ->
               repo_id (irepo i) = repo_id (irepo self) -> job i = None)
      /\ get_job st (job_id r) = Some r
      /\ self' = with_job self (Some (job_id r))
      /\ st' = save_enrich self' st
  | (Ok None, self', st') =>
      self' = self /\ st' = st
      /\ forall i, In i (iglenrich st) ->
                   repo_id (irepo i) = repo_id (irepo self) -> job i = None
  | (Raise e, self', st') =>
      self' = self /\ st' = st /\ e = DoesNotExist
      /\ exists before c after j,
           iglenrich st = before ++ c :: after
           /\ repo_id (irepo c) = repo_id (irepo self)
           /\ job c = Some j /\ get_job st j = None
           /\ forall i, In i before ->
                repo_id (irepo i) = repo_id (irepo self) -> job i = None
  end.
Proof.
  split.
  - unfold IGLRaw.running_job, IGLRaw.candidates.
    destruct (filter _ (iglraw st)) as [| c rest] eqn:F.
    + repeat split. intros i Hin Hr.
      apply (candidates_none _ _ F i Hin). now apply Z.eqb_eq.
    + apply first_candidate in F.
      destruct F as [before [after [j [Hl [Hs [Hj Hb]]]]]].
      destruct (related_job st c) as [r |] eqn:R.
      * apply related_job_attached in R. destruct R as [Hjr Hg].
        cbv zeta.
        match goal with
        | |- context [fold_left ?f ?ts ?s0] =>
            pose proof (attach_all_frame (job_id r) ts s0) as Hfr;
            pose proof (attach_all_pairs (job_id r) ts s0) as Hp
        end.
        cbv zeta in Hfr. simpl in Hfr, Hp.
        destruct Hfr as (Hf1 & _ & Hf3 & Hf4 & Hf5 & _ & Hf7 & _).
        split; [exists before, c, after; auto |].
        split; [exact Hg |]. split; [reflexivity |].
        split; [exact Hf4 |].
        split; [intros p H; apply Hp; now left |].
        split.
        { intros p H. apply Hp in H. destruct H as [H | [t [Ht ->]]]; [auto |].
          right. apply filter_In in Ht. destruct Ht as [Ht Hu].
          apply user_is_iff in Hu. exists t. auto. }
        split.
        { intros t Ht Hu _. apply Hp. right. exists t.
          split; [| reflexivity].
          apply filter_In. split; [exact Ht | now apply user_is_iff]. }
        repeat split; assumption.
      * repeat split. exists before, c, after, j.
        repeat split; try assumption.
        unfold related_job in R. now rewrite Hj in R.
  - unfold IGLEnrich.running_job, IGLEnrich.candidates.
    destruct (filter _ (iglenrich st)) as [| c rest] eqn:F.
    + repeat split. intros i Hin Hr.
      apply (candidates_none _ _ F i Hin). now apply Z.eqb_eq.
    + apply first_candidate in F.
      destruct F as [before [after [j [Hl [Hs [Hj Hb]]]]]].
      destruct (related_job st c) as [r |] eqn:R.
      * apply related_job_attached in R. destruct R as [Hjr Hg].
        split; [exists before, c, after; auto |].
        repeat split; assumption.
      * repeat split. exists before, c, after, j.
        repeat split; try assumption.
        unfold related_job in R. now rewrite Hj in R.
Qed.

(** C5, counterexample: at [Sample.st_share] the only token of the
    current user is not past its reset at [t1], yet [running_job]
    attaches it to the shared job; and at [Sample.st_alone], where no
    other intention exists on the repository, [running_job] of the one
    intention returns its own job rather than nothing. *)
Lemma running_job_attaches_unready_token :
  is_ready Sample.t1 Sample.token_late = false
  /\ gltoken_jobs Sample.st_share = []
  /\ IGLRaw.running_job Sample.rawB Sample.st_share
     = (Ok (Some Sample.job1),
        with_job Sample.rawB (Some 1),
        mkStore [Sample.job1] 2 [Sample.token_late] [(3, 1)]
                [Sample.rawA; with_job Sample.rawB (Some 1)] [] 3 [] [] [])
  /\ iglraw Sample.st_alone = [Sample.rawA]
  /\ fst (fst (IGLRaw.running_job Sample.rawA Sample.st_alone))
     = Ok (Some Sample.job1).
Proof.
  repeat split.
Qed.

(** *** create_previous *)

Lemma has_pair_m2m_add (p : Z * Z) (l : list (Z * Z)) :
  has_pair p (m2m_add p l) = true.
Proof.
  apply has_pair_In, In_m2m_add. now right.
Qed.

Lemma m2m_add_idem (p : Z * Z) (l : list (Z * Z)) :
  m2m_add p (m2m_add p l) = m2m_add p l.
Proof.
  unfold m2m_add at 1. now rewrite has_pair_m2m_add.
Qed.

Lemma set_previous_twice (st : Store) (p : Z * Z) :
  let st1 := set_previous st (m2m_add p (previous st)) in
  set_previous st1 (m2m_add p (previous st1)) = st1.
Proof.
  cbv zeta. unfold set_previous at 1. simpl. rewrite m2m_add_idem.
  reflexivity.
Qed.

(** [IGLEnrich.create_previous] called again on the store left by a
    first call returns what the first call returned and leaves that store
    as it is. *)
Lemma create_previous_twice (now now' : Z) (self : Intention)
  (st : Store) :
  IGLRaw.create_previous self st = (Ok [], st)
  /\
  let '(r1, st1) := IGLEnrich.create_previous now self st in
  let '(r2, st2) := IGLEnrich.create_previous now' self st1 in
  r2 = r1 /\ st2 = st1
  /\ match r1 with
     | Ok l =>
         exists raw_intention,
           l = [raw_intention]
           /\ IGLEnrich.raw_matches self st1 = [raw_intention]
           /\ In raw_intention (iglraw st1)
           /\ repo_id (irepo raw_intention) = repo_id (irepo self)
           /\ user raw_intention = user self
           /\ In (pk self, pk raw_intention) (previous st1)
           /\ (IGLEnrich.raw_matches self st = []
               \/ iglraw st1 = iglraw st)
     | Raise _ => st1 = st
     end.
Proof.
  split; [reflexivity |].
  unfold IGLEnrich.create_previous at 1.
  destruct (IGLEnrich.raw_matches self st) as [| r [| r' rest]] eqn:M.
  - (* no row yet: one is created *)
    set (raw := mkIntention (next_intention_id st) (user self) (irepo self)
                            None now).
    set (st0 := set_iglraw st (iglraw st ++ [raw]) (next_intention_id st + 1)).
    assert (M1 : IGLEnrich.raw_matches self
                   (set_previous st0 (m2m_add (pk self, pk raw) (previous st0)))
                 = [raw]).
    { unfold IGLEnrich.raw_matches in *. simpl. rewrite filter_app, M. simpl.
      unfold same_repo. now rewrite !Z.eqb_refl. }
    unfold IGLEnrich.create_previous. rewrite M1.
    rewrite (set_previous_twice st0 (pk self, pk raw)).
    repeat split. exists raw.
    split; [reflexivity |]. split; [first [exact M1 | reflexivity] |].
    split; [simpl; apply in_or_app; right; now left |].
    split; [reflexivity |]. split; [reflexivity |].
    split; [simpl; apply In_m2m_add; now right | now left].
  - (* exactly one row: it is returned *)
    assert (M1 : IGLEnrich.raw_matches self
                   (set_previous st (m2m_add (pk self, pk r) (previous st)))
                 = [r]) by exact M.
    unfold IGLEnrich.create_previous. rewrite M1.
    rewrite (set_previous_twice st (pk self, pk r)).
    assert (Hr : In r (IGLEnrich.raw_matches self st)) by (rewrite M; now left).
    apply filter_In in Hr. destruct Hr as [Hin Hb].
    apply andb_true_iff in Hb. destruct Hb as [Hs Hu].
    apply Z.eqb_eq in Hs, Hu.
    repeat split. exists r.
    split; [reflexivity |]. split; [first [exact M1 | reflexivity] |].
    split; [exact Hin |]. split; [exact Hs |]. split; [exact Hu |].
    split; [simpl; apply In_m2m_add; now right | now right].
  - (* several rows: MultipleObjectsReturned, twice *)
    unfold IGLEnrich.create_previous. rewrite M. repeat split.
Qed.

Lemma raw_for_iff (self i : Intention) :
  same_repo (irepo i) (irepo self) && (user i =? user self) = true
  <-> raw_for self i.
Proof.
  unfold raw_for, same_repo. now rewrite andb_true_iff, !Z.eqb_eq.
Qed.

Lemma raw_matches_none (self : Intention) (l : list Intention) :
  (forall i, In i l -> ~ raw_for self i) ->
  filter (fun i => same_repo (irepo i) (irepo self) && (user i =? user self))
         l = [].
Proof.
  intros H. induction l as [| x l IH]; [reflexivity |]. simpl.
  destruct (same_repo (irepo x) (irepo self) && (user x =? user self)) eqn:E.
  - apply raw_for_iff in E. destruct (H x (or_introl eq_refl) E).
  - apply IH. intros i Hi. apply H. now right.
Qed.

Lemma raw_matches_In (self : Intention) (st : Store) (i : Intention) :
  In i (IGLEnrich.raw_matches self st) <-> In i (iglraw st) /\ raw_for self i.
Proof.
  unfold IGLEnrich.raw_matches. rewrite filter_In. now rewrite raw_for_iff.
Qed.

(** C8: [IGLRaw.create_previous] returns the empty list and writes
    nothing.  [IGLEnrich.create_previous] gets or creates the raw
    intention of the repository and user of the intention.  When no row
    of the raw table has that repository and user, it creates one, with
    the next key of the sequence, no job and the current time, appended
    to the table; when exactly one row has them, it takes that row and
    the table is as before; in both cases it returns that one intention
    and registers it in [previous] of the intention, writing nothing
    else.  (Two rows for one repository and user raise
    [MultipleObjectsReturned], the store untouched.)  Called again on
    the store left by a first call, it returns what the first call
    returned and leaves that store as it is: no second row in the raw
    table, no second row in [previous]. *)
Theorem create_previous_idempotent (now now' : Z) (self : Intention)
  (st : Store) :
  IGLRaw.create_previous self st = (Ok [], st)
  /\
  (let '(r1, st1) := IGLEnrich.create_previous now self st in
   let '(r2, st2) := IGLEnrich.create_previous now' self st1 in
   r2 = r1 /\ st2 = st1)
  /\
  ((forall i, In i (iglraw st) -> ~ raw_for self i) ->
   let raw_intention :=
     mkIntention (next_intention_id st) (user self) (irepo self) None now in
   exists st1,
     IGLEnrich.create_previous now self st = (Ok [raw_intention], st1)
     /\ iglraw st1 = iglraw st ++ [raw_intention]
     /\ next_intention_id st1 = next_intention_id st + 1
     /\ (forall p, In p (previous st1)
                   <-> In p (previous st) \/ p = (pk self, pk raw_intention))
     /\ (forall i, In i (iglraw st1) -> raw_for self i -> i = raw_intention)
     /\ jobs st1 = jobs st /\ gltokens st1 = gltokens st
     /\ gltoken_jobs st1 = gltoken_jobs st /\ iglenrich st1 = iglenrich st)
  /\
  (forall before raw_intention after,
     iglraw st = before ++ raw_intention :: after ->
     raw_for self raw_intention ->
     (forall i, In i before \/ In i after -> ~ raw_for self i) ->
     exists st1,
       IGLEnrich.create_previous now self st = (Ok [raw_intention], st1)
       /\ iglraw st1 = iglraw st
       /\ next_intention_id st1 = next_intention_id st
       /\ (forall p, In p (previous st1)
                     <-> In p (previous st) \/ p = (pk self, pk raw_intention))
       /\ jobs st1 = jobs st /\ gltokens st1 = gltokens st
       /\ gltoken_jobs st1 = gltoken_jobs st /\ iglenrich st1 = iglenrich st)
  /\
  (forall l1 a l2 b l3,
     iglraw st = l1 ++ a :: l2 ++ b :: l3 ->
     raw_for self a -> raw_for self b ->
     IGLEnrich.create_previous now self st = (Raise MultipleObjectsReturned, st)).
Proof.
  split; [reflexivity |]. split.
  { pose proof (create_previous_twice now now' self st) as [_ H].
    destruct (IGLEnrich.create_previous now self st) as [r1 st1].
    destruct (IGLEnrich.create_previous now' self st1) as [r2 st2].
    destruct H as [H1 [H2 _]]. now split. }
  split; [| split].
  - intros Hnone. cbv zeta. unfold IGLEnrich.create_previous.
    assert (M : IGLEnrich.raw_matches self st = [])
      by (now apply raw_matches_none).
    rewrite M. eexists. split; [reflexivity |]. simpl.
    repeat split.
    + intros H. now apply In_m2m_add in H.
    + intros H. now apply In_m2m_add.
    + intros i Hi Hr. apply in_app_or in Hi.
      destruct Hi as [Hi | [<- | []]]; [| reflexivity].
      destruct (Hnone i Hi Hr).
  - intros l1 r l2 Hl Hr Hnone. unfold IGLEnrich.create_previous.
    assert (M : IGLEnrich.raw_matches self st = [r]).
    { unfold IGLEnrich.raw_matches. rewrite Hl, filter_app. simpl.
      rewrite (proj2 (raw_for_iff self r) Hr).
      rewrite !raw_matches_none; [reflexivity | |];
        intros i Hi; apply Hnone; auto. }
    rewrite M. eexists. split; [reflexivity |]. simpl.
    repeat split.
    + intros H. now apply In_m2m_add in H.
    + intros H. now apply In_m2m_add.
  - intros l1 a l2 b l3 Hl Ha Hb. unfold IGLEnrich.create_previous.
    assert (M : exists x y rest, IGLEnrich.raw_matches self st = x :: y :: rest).
    { unfold IGLEnrich.raw_matches. rewrite Hl, filter_app. simpl.
      rewrite (proj2 (raw_for_iff self a) Ha), filter_app. simpl.
      rewrite (proj2 (raw_for_iff self b) Hb).
      destruct (filter _ l1) as [| x [| y pre]]; simpl.
      - destruct (filter _ l2) as [| y mid]; simpl; eauto.
      - eauto.
      - eauto. }
    destruct M as [x [y [rest ->]]]. reflexivity.
Qed.

(** C8, witness: the enrich intention of key 2 at [Sample.st_dep], where
    the raw table is empty, gets the raw intention of key 3. *)
Lemma create_previous_idempotent_witness :
  iglraw Sample.st_dep = []
  /\ fst (IGLEnrich.create_previous Sample.t1 Sample.enrichB Sample.st_dep)
     = Ok [mkIntention 3 1 Sample.repo1 None Sample.t1].
Proof.
  split; [reflexivity |].
  destruct (create_previous_idempotent Sample.t1 Sample.t2 Sample.enrichB
              Sample.st_dep) as [_ [_ [H _]]].
  destruct H as [st1 [H1 _]].
  - intros i [].
  - rewrite H1. reflexivity.
Defined.

(** *** Workers of jobs *)

Lemma keeps_workers_refl (st : Store) : keeps_workers st st.
Proof. intros j w H. exact H. Qed.

Lemma keeps_workers_trans (a b c : Store) :
  keeps_workers a b -> keeps_workers b c -> keeps_workers a c.
Proof. intros H1 H2 j w H. apply H2, H1, H. Qed.

Lemma keeps_workers_same_jobs (st st' : Store) :
  jobs st' = jobs st -> keeps_workers st st'.
Proof.
  intros E j w. unfold worker_of, get_job. now rewrite E.
Qed.

Lemma find_app_some (A : Type) (f : A -> bool) (l l' : list A) (x : A) :
  find f l = Some x -> find f (l ++ l') = Some x.
Proof.
  induction l as [| y l IH]; simpl; [discriminate |].
  destruct (f y); [easy | exact IH].
Qed.

Lemma keeps_workers_create_job_row (w : Z) (st : Store) :
  keeps_workers st (snd (create_job_row w st)).
Proof.
  intros j w0. unfold worker_of, get_job. simpl.
  destruct (find _ (jobs st)) as [r |] eqn:F; [| discriminate].
  now rewrite (find_app_some _ _ [mkJob (next_job_id st) (Some w)] F).
Qed.

Lemma keeps_workers_assign (w : Z) (r : Job) (st : Store) :
  get_job st (job_id r) = Some r -> worker r = None ->
  keeps_workers st (snd (assign_worker w r st)).
Proof.
  intros Hg Hn j w0. unfold worker_of. simpl.
  destruct (Z.eq_dec j (job_id r)) as [-> | Hne].
  - rewrite Hg, Hn. discriminate.
  - unfold get_job. simpl.
    now rewrite (find_save_job_other (mkJob (job_id r) (Some w)) (jobs st) Hne).
Qed.

Lemma keeps_workers_raw_loop (w : Z) (tokens : list GLToken)
  (self : Intention) (jobv : option Job) (st : Store) :
  keeps_workers st (snd (IGLRaw.create_job_loop w tokens self jobv st)).
Proof.
  revert self jobv st. induction tokens as [| t ts IH]; intros self jobv st.
  - apply keeps_workers_refl.
  - simpl. destruct (jobs_count st (token_id t) <? MAX_JOBS_TOKEN).
    + destruct (job self) as [j |].
      * eapply keeps_workers_trans; [| apply IH].
        now apply keeps_workers_same_jobs.
      * simpl. eapply keeps_workers_trans; [| apply IH].
        eapply keeps_workers_trans; [apply (keeps_workers_create_job_row w) |].
        now apply keeps_workers_same_jobs.
    + apply IH.
Qed.

Lemma raw_run_frame
  (GitLabRaw : string -> string -> result Z) (now0 now1 : Z)
  (self : Intention) (j : Job) (st : Store) (lg : list Handler) :
  let st' := snd (fst (IGLRaw.run GitLabRaw now0 now1 self j st lg)) in
  jobs st' = jobs st /\ gltoken_jobs st' = gltoken_jobs st
  /\ iglraw st' = iglraw st /\ iglenrich st' = iglenrich st
  /\ previous st' = previous st.
Proof.
  unfold IGLRaw.run.
  destruct (IGLRaw.ready_token st now0 j) as [tok |]; [| now repeat split].
  cbv zeta.
  repeat match goal with
         | |- context [if ?b then _ else _] => destruct b
         | |- context [match ?x with Ok _ => _ | Raise _ => _ end] =>
             destruct x
         end; now repeat split.
Qed.

Lemma enrich_run_frame (GitLabEnrich : string -> result string)
  (self : Intention) (j : Job) (st : Store) (lg : list Handler) :
  snd (fst (IGLEnrich.run GitLabEnrich self j st lg)) = st.
Proof.
  unfold IGLEnrich.run.
  repeat match goal with
         | |- context [if ?b then _ else _] => destruct b
         | |- context [match ?x with Ok _ => _ | Raise _ => _ end] =>
             destruct x
         end; reflexivity.
Qed.

Lemma raw_running_job_frame (self : Intention) (st : Store) :
  jobs (snd (IGLRaw.running_job self st)) = jobs st.
Proof.
  unfold IGLRaw.running_job.
  destruct (IGLRaw.candidates self st) as [| c rest]; [reflexivity |].
  destruct (related_job st c) as [r |]; [| reflexivity].
  cbv zeta. simpl snd.
  match goal with
  | |- context [fold_left ?f ?ts ?s0] =>
      destruct (attach_all_frame (job_id r) ts s0) as [Hj _]
  end.
  exact Hj.
Qed.

Lemma enrich_running_job_frame (self : Intention) (st : Store) :
  jobs (snd (IGLEnrich.running_job self st)) = jobs st.
Proof.
  unfold IGLEnrich.running_job.
  destruct (IGLEnrich.candidates self st) as [| c rest]; [reflexivity |].
  destruct (related_job st c) as [r |]; reflexivity.
Qed.

Lemma keeps_workers_raw_next_job (w now : Z) (st : Store) :
  keeps_workers st (snd (IGLRaw.next_job w now st)).
Proof.
  unfold IGLRaw.next_job.
  destruct (find (IGLRaw.waiting st now) (iglraw st)) as [i |] eqn:F;
    [| apply keeps_workers_refl].
  apply find_some in F. destruct F as [_ Hw].
  apply raw_waiting_iff in Hw. destruct Hw as [r [[Hj [Hg Hn]] _]].
  rewrite (attached_related_job _ _ Hj Hg).
  now apply keeps_workers_assign.
Qed.

Lemma keeps_workers_enrich_next_job (w : Z) (st : Store) :
  keeps_workers st (snd (IGLEnrich.next_job w st)).
Proof.
  unfold IGLEnrich.next_job.
  destruct (find (IGLEnrich.waiting st) (iglenrich st)) as [i |] eqn:F;
    [| apply keeps_workers_refl].
  apply find_some in F. destruct F as [_ Hw].
  apply enrich_waiting_iff in Hw. destruct Hw as [r [Hj [Hg Hn]]].
  rewrite (attached_related_job _ _ Hj Hg).
  now apply keeps_workers_assign.
Qed.

Lemma keeps_workers_exec (c : call) (st : Store) :
  keeps_workers st (exec c st).
Proof.
  destruct c; simpl.
  - apply keeps_workers_raw_next_job.
  - apply keeps_workers_refl.
  - apply keeps_workers_same_jobs, raw_running_job_frame.
  - unfold IGLRaw.create_job.
    pose proof (keeps_workers_raw_loop w
                  (filter (user_is (user self)) (gltokens st)) self None st)
      as H.
    destruct (IGLRaw.create_job_loop w _ self None st) as [[self' jobv] st'].
    exact H.
  - apply keeps_workers_same_jobs.
    apply (raw_run_frame runner now0 now1 self j st lg).
  - now apply keeps_workers_same_jobs.
  - apply keeps_workers_enrich_next_job.
  - apply keeps_workers_same_jobs. unfold IGLEnrich.create_previous.
    destruct (IGLEnrich.raw_matches self st) as [| r [| r' rest]]; reflexivity.
  - apply keeps_workers_same_jobs, enrich_running_job_frame.
  - unfold IGLEnrich.create_job. destruct (job self).
    + apply keeps_workers_refl.
    + apply (keeps_workers_create_job_row w).
  - rewrite enrich_run_frame. apply keeps_workers_refl.
  - now apply keeps_workers_same_jobs.
Qed.

Lemma keeps_workers_exec_all (cs : list call) (st : Store) :
  keeps_workers st (exec_all cs st).
Proof.
  revert st. induction cs as [| c cs IH]; intros st.
  - apply keeps_workers_refl.
  - simpl. eapply keeps_workers_trans; [apply keeps_workers_exec | apply IH].
Qed.

Lemma raw_loop_job_has_worker (w : Z) (tokens : list GLToken)
  (self : Intention) (jobv : option Job) (st : Store) :
  (forall j, jobv = Some j -> worker j = Some w /\ In j (jobs st)) ->
  forall j, snd (fst (IGLRaw.create_job_loop w tokens self jobv st)) = Some j ->
            worker j = Some w
            /\ In j (jobs (snd (IGLRaw.create_job_loop w tokens self jobv st))).
Proof.
  revert self jobv st. induction tokens as [| t ts IH]; intros self jobv st Hv.
  - simpl. exact Hv.
  - simpl. destruct (jobs_count st (token_id t) <? MAX_JOBS_TOKEN).
    + destruct (job self) as [j0 |].
      * apply IH. exact Hv.
      * simpl. apply IH. intros j Hj. inversion Hj. subst j. simpl.
        split; [reflexivity |]. apply in_or_app. right. now left.
    + apply IH. exact Hv.
Qed.

(** C6 (as the code has it): a job made by [create_job], of either
    intention model, is a row of the job table whose worker is the worker
    passed to [create_job]: it is created with a worker.  And no call of
    the module takes a worker away from a job or replaces it: a job that
    has a worker has the same worker after any call, and after any
    sequence of calls. *)
Theorem jobs_created_with_worker_and_keep_it (w : Z) (self : Intention)
  (st : Store) :
  (forall j, fst (fst (IGLRaw.create_job w self st)) = Some j ->
             worker j = Some w
             /\ In j (jobs (snd (IGLRaw.create_job w self st))))
  /\
  (forall j, fst (fst (IGLEnrich.create_job w self st)) = Some j ->
             worker j = Some w
             /\ In j (jobs (snd (IGLEnrich.create_job w self st))))
  /\
  (forall (c : call) (j w0 : Z),
      worker_of st j = Some w0 -> worker_of (exec c st) j = Some w0)
  /\
  (forall (cs : list call) (j w0 : Z),
      worker_of st j = Some w0 -> worker_of (exec_all cs st) j = Some w0).
Proof.
  split; [| split; [| split]].
  - intros j. unfold IGLRaw.create_job.
    pose proof (@raw_loop_job_has_worker w
                  (filter (user_is (user self)) (gltokens st)) self None st)
      as H.
    destruct (IGLRaw.create_job_loop w _ self None st) as [[self' jobv] st'].
    simpl in *. apply H. discriminate.
  - intros j. unfold IGLEnrich.create_job. destruct (job self); simpl.
    + discriminate.
    + intros Hj. inversion Hj. subst j. simpl.
      split; [reflexivity |]. apply in_or_app. right. now left.
  - intros c. apply keeps_workers_exec.
  - intros cs. apply keeps_workers_exec_all.
Qed.

(** C6, witness: the job of [Sample.st_run] once [next_job] gave it
    worker 7 keeps that worker through a run that ends in a retry. *)
Lemma jobs_created_with_worker_and_keep_it_witness :
  worker_of (exec (RawNextJob 7 Sample.t1) Sample.st_run) 1 = Some 7
  /\ worker_of
       (exec_all [RawRun (Sample.returns 30) Sample.t1 Sample.t2
                         Sample.raw1 Sample.job1 []]
                 (exec (RawNextJob 7 Sample.t1) Sample.st_run)) 1
     = Some 7.
Proof.
  split; [reflexivity |].
  destruct (jobs_created_with_worker_and_keep_it 0 Sample.raw1
              (exec (RawNextJob 7 Sample.t1) Sample.st_run))
    as [_ [_ [_ H]]].
  apply H. reflexivity.
Defined.

(** C6, counterexample: the jobs that [IGLEnrich.create_job] and
    [IGLRaw.create_job] create for worker 7 have worker 7 from the row's
    creation on, and so are not found by [next_job]. *)
Lemma create_job_assigns_worker :
  IGLEnrich.create_job 7 Sample.enrichB Sample.st_dep
  = (Some (mkJob 2 (Some 7)),
     with_job Sample.enrichB (Some 2),
     mkStore [Sample.job1; mkJob 2 (Some 7)] 3 [] [] []
             [Sample.enrichA; Sample.enrichB] 3 [] [] [])
  /\
  IGLRaw.create_job 7 Sample.rawB Sample.st_share
  = (Some (mkJob 2 (Some 7)),
     with_job Sample.rawB (Some 2),
     mkStore [Sample.job1; mkJob 2 (Some 7)] 3 [Sample.token_late] [(3, 2)]
             [Sample.rawA; Sample.rawB] [] 3 [] [] []).
Proof.
  split; reflexivity.
Qed.

(** *** Prerequisites *)

Lemma previous_empty_iff (st : Store) (i : Z) :
  previous_empty st i = true <-> forall q, ~ In (i, q) (previous st).
Proof.
  unfold previous_empty. rewrite negb_true_iff. split.
  - intros H q Hin.
    assert (E : existsb (fun p => fst p =? i) (previous st) = true).
    { apply existsb_exists. exists (i, q). split; [exact Hin |].
      simpl. apply Z.eqb_refl. }
    congruence.
  - intros H. destruct (existsb _ (previous st)) eqn:E; [| reflexivity].
    apply existsb_exists in E. destruct E as [[a b] [Hin He]].
    simpl in He. apply Z.eqb_eq in He. subst a. destruct (H b Hin).
Qed.

Lemma In_firstn (A : Type) (n : nat) (l : list A) (x : A) :
  In x (firstn n l) -> In x l.
Proof.
  revert l. induction n as [| n IH]; intros [| y l]; simpl; try easy.
  intros [-> | H]; [now left | right; now apply IH].
Qed.



(** *** The cap on the jobs of a token *)

Lemma jobs_count_add (t : GLToken) (j : Z) (st : Store) (t' : Z) :
  jobs_count (token_jobs_add t j st) t'
  <= jobs_count st t' + (if token_id t =? t' then 1 else 0).
Proof.
  unfold jobs_count, token_jobs_add, m2m_add. simpl.
  destruct (has_pair (token_id t, j) (gltoken_jobs st)).
  - destruct (token_id t =? t'); lia.
  - rewrite filter_app, length_app. simpl.
    destruct (token_id t =? t'); simpl; lia.
Qed.

Lemma within_cap_raw_loop (w : Z) (tokens : list GLToken)
  (self : Intention) (jobv : option Job) (st : Store) :
  within_cap st ->
  within_cap (snd (IGLRaw.create_job_loop w tokens self jobv st)).
Proof.
  revert self jobv st. induction tokens as [| t ts IH]; intros self jobv st H.
  - exact H.
  - simpl. destruct (jobs_count st (token_id t) <? MAX_JOBS_TOKEN) eqn:E.
    + apply Z.ltb_lt in E.
      assert (Hadd : forall s j, gltoken_jobs s = gltoken_jobs st ->
                                 within_cap (token_jobs_add t j s)).
      { intros s j Hs t'. pose proof (jobs_count_add t j s t') as Hc.
        assert (Hsame : jobs_count s t' = jobs_count st t')
          by (unfold jobs_count; now rewrite Hs).
        specialize (H t'). destruct (token_id t =? t') eqn:Et.
        - apply Z.eqb_eq in Et. subst t'. lia.
        - lia. }
      destruct (job self) as [j |]; simpl; apply IH; now apply Hadd.
    + apply IH, H.
Qed.

(** [IGLRaw.create_job] keeps every token within its cap. *)
Lemma create_job_within_cap (w : Z) (self : Intention) (st : Store) :
  within_cap st -> within_cap (snd (IGLRaw.create_job w self st)).
Proof.
  intros H. unfold IGLRaw.create_job.
  pose proof (within_cap_raw_loop w
                (filter (user_is (user self)) (gltokens st)) self None H)
    as Hl.
  destruct (IGLRaw.create_job_loop w _ self None st) as [[self' jobv] st'].
  exact Hl.
Qed.

Lemma within_cap_same_pairs (st st' : Store) :
  gltoken_jobs st' = gltoken_jobs st -> within_cap st -> within_cap st'.
Proof.
  intros E H t. unfold jobs_count. rewrite E. apply H.
Qed.

(** So does every call of the module other than [IGLRaw.running_job]. *)
Lemma within_cap_exec (c : call) (st : Store) :
  (forall self, c <> RawRunningJob self) ->
  within_cap st -> within_cap (exec c st).
Proof.
  intros Hc H. destruct c; simpl.
  - unfold IGLRaw.next_job.
    destruct (find _ (iglraw st)); [| exact H].
    destruct (related_job st i); exact H.
  - exact H.
  - destruct (Hc self eq_refl).
  - now apply create_job_within_cap.
  - eapply within_cap_same_pairs; [| exact H].
    apply (raw_run_frame runner now0 now1 self j st lg).
  - exact H.
  - unfold IGLEnrich.next_job.
    destruct (find _ (iglenrich st)); [| exact H].
    destruct (related_job st i); exact H.
  - unfold IGLEnrich.create_previous.
    destruct (IGLEnrich.raw_matches self st) as [| r [| r' rest]]; exact H.
  - unfold IGLEnrich.running_job.
    destruct (IGLEnrich.candidates self st) as [| c rest]; [exact H |].
    destruct (related_job st c); exact H.
  - unfold IGLEnrich.create_job. destruct (job self); exact H.
  - now rewrite enrich_run_frame.
  - exact H.
Qed.

Lemma create_and_save_within_cap (w : Z) (self : Intention) (st : Store) :
  within_cap st -> within_cap (Sample.create_and_save w self st).
Proof.
  intros H. unfold Sample.create_and_save.
  pose proof (create_job_within_cap w self H) as Hc.
  destruct (IGLRaw.create_job w self st) as [[o self'] st'].
  eapply within_cap_same_pairs; [| exact Hc]. reflexivity.
Qed.

(** C1, at the failing input: from [Sample.st_cap], where no token has a
    job, [create_job] gives [i1], [i2] and [i4] their jobs, so that the
    token of user 1 holds two jobs.  [selectable_intentions] then selects
    [i3] and [i5] for user 1.  [create_job] of [i3] fills the token with
    a third job, and [running_job] of [i5] finds the job of [i4] on its
    repository and attaches the token of user 1 to it: a fourth job,
    every one of the four being the job of a live intention. *)
Theorem running_job_exceeds_cap :
  within_cap Sample.st_cap
  /\ IRawManager.selectable_intentions Sample.t1 1 2 Sample.st_sel
     = [Sample.i3; Sample.i5]
  /\ fst (fst (IGLRaw.running_job Sample.i3 Sample.st_sel)) = Ok None
  /\ within_cap Sample.st_full
  /\ jobs_count Sample.st_full 1 = MAX_JOBS_TOKEN
  /\ let '(found, self', st') :=
       IGLRaw.running_job Sample.i5 Sample.st_full in
     found = Ok (Some (mkJob 3 (Some 7)))
     /\ gltoken_jobs st' = [(1, 1); (1, 2); (2, 3); (1, 4); (1, 3)]
     /\ map job (iglraw st')
        = [Some 1; Some 2; Some 4; Some 3; Some 3]
     /\ jobs_count st' 1 = 4
     /\ ~ within_cap st'.
Proof.
  assert (H0 : within_cap Sample.st_cap) by (intros t; vm_compute; discriminate).
  split; [exact H0 |]. split; [reflexivity |]. split; [reflexivity |]. split.
  - unfold Sample.st_full, Sample.st_sel.
    now repeat apply create_and_save_within_cap.
  - split; [reflexivity |]. vm_compute.
    repeat split. intros H. specialize (H 1). vm_compute in H. apply H.
    reflexivity.
Qed.

(** *** Calls of next_job one after the other *)

Lemma next_job_skips_claimed (st : Store) (jid w0 : Z) :
  worker_of st jid = Some w0 ->
  forall (w now : Z) (j : Job),
    (fst (IGLRaw.next_job w now st) = Some j -> job_id j <> jid)
    /\ (fst (IGLEnrich.next_job w st) = Some j -> job_id j <> jid).
Proof.
  intros Hw w now j. split.
  - pose proof (raw_next_job_cases w now st) as H.
    destruct (IGLRaw.next_job w now st) as [[j0 |] st']; simpl;
      [| discriminate].
    intros Hj. inversion Hj. subst j0.
    destruct H as [i [r [_ [[_ [Hg Hn]] [_ [-> _]]]]]]. simpl.
    intros <-. unfold worker_of in Hw. rewrite Hg, Hn in Hw. discriminate.
  - pose proof (enrich_next_job_cases w st) as H.
    destruct (IGLEnrich.next_job w st) as [[j0 |] st']; simpl;
      [| discriminate].
    intros Hj. inversion Hj. subst j0.
    destruct H as [i [r [_ [[_ [Hg Hn]] [-> _]]]]]. simpl.
    intros <-. unfold worker_of in Hw. rewrite Hg, Hn in Hw. discriminate.
Qed.

(** When the transactions of [next_job] run one after the other, a job
    that one caller obtained is obtained by no later caller, whatever
    calls of the module come in between. *)
Lemma next_job_serial_single_claim (w now : Z) (st st1 : Store) (j : Job) :
  IGLRaw.next_job w now st = (Some j, st1)
  \/ IGLEnrich.next_job w st = (Some j, st1) ->
  worker_of st1 (job_id j) = Some w
  /\ forall (cs : list call) (w' now' : Z) (j' : Job),
       (fst (IGLRaw.next_job w' now' (exec_all cs st1)) = Some j' ->
        job_id j' <> job_id j)
       /\ (fst (IGLEnrich.next_job w' (exec_all cs st1)) = Some j' ->
           job_id j' <> job_id j).
Proof.
  intros H.
  assert (Hw : worker_of st1 (job_id j) = Some w).
  { destruct H as [H | H].
    - pose proof (raw_next_job_cases w now st) as Hc. rewrite H in Hc.
      destruct Hc as [i [r [_ [_ [_ [Hj [_ Hg]]]]]]].
      unfold worker_of. rewrite Hg. now rewrite Hj.
    - pose proof (enrich_next_job_cases w st) as Hc. rewrite H in Hc.
      destruct Hc as [i [r [_ [_ [Hj [_ Hg]]]]]].
      unfold worker_of. rewrite Hg. now rewrite Hj. }
  split; [exact Hw |]. intros cs w' now' j'.
  apply next_job_skips_claimed with (w0 := w).
  now apply keeps_workers_exec_all.
Qed.

(** *** Runs of the model on the sample stores *)

Example next_job_at_reset :
  IGLRaw.next_job 7 Sample.t0 Sample.st_run = (None, Sample.st_run).
Proof. reflexivity. Qed.

Example next_job_after_reset :
  IGLRaw.next_job 7 Sample.t1 Sample.st_run
  = (Some (mkJob 1 (Some 7)),
     mkStore [mkJob 1 (Some 7)] 2 [Sample.token1] [(1, 1)] [Sample.raw1]
             [] 2 [] [] []).
Proof. reflexivity. Qed.

Example next_job_twice :
  IGLRaw.next_job 8 Sample.t1 (snd (IGLRaw.next_job 7 Sample.t1 Sample.st_run))
  = (None, snd (IGLRaw.next_job 7 Sample.t1 Sample.st_run)).
Proof. reflexivity. Qed.

(** A runner output of 30 moves the reset of the token 30 minutes past
    the end of the run; the waiting job is not offered 10 minutes later
    and is offered again 31 minutes later. *)
Example retry_after_30_minutes :
  let st' := snd (fst (IGLRaw.run (Sample.returns 30) Sample.t1 Sample.t2
                                  Sample.raw1 Sample.job1 Sample.st_run []))
  in
  map reset (gltokens st') = [Sample.t2 + 30 * MINUTE]
  /\ map job (iglraw st') = [Some 1]
  /\ fst (IGLRaw.next_job 7 (Sample.t2 + 10 * MINUTE) st') = None
  /\ fst (IGLRaw.next_job 7 (Sample.t2 + 31 * MINUTE) st')
     = Some (mkJob 1 (Some 7)).
Proof. vm_compute. repeat split. Qed.

Example enrich_create_previous_twice :
  let '(r1, st1) := IGLEnrich.create_previous Sample.t1 Sample.enrichB
                                              Sample.st_dep in
  let '(r2, st2) := IGLEnrich.create_previous Sample.t2 Sample.enrichB st1 in
  r1 = Ok [mkIntention 3 1 Sample.repo1 None Sample.t1]
  /\ r2 = r1
  /\ iglraw st2 = [mkIntention 3 1 Sample.repo1 None Sample.t1]
  /\ previous st2 = [(2, 3)].
Proof. vm_compute. repeat split. Qed.

Example enrich_run_returns :
  IGLEnrich.run (fun _ => Ok EmptyString)
                Sample.enrich1 Sample.job1 Sample.st_enrich []
  = (Ok true, Sample.st_enrich, [])
  /\
  IGLEnrich.run (fun _ => Ok "404 Not Found"%string)
                Sample.enrich1 Sample.job1 Sample.st_enrich []
  = (Raise StopException, Sample.st_enrich, []).
Proof. split; reflexivity. Qed.

(** * Further properties of the module *)

(** *** selectable_intentions *)

Lemma token_available_iff (st : Store) (now u : Z) :
  existsb (fun t => user_is u t
                    && (jobs_count st (token_id t) <? MAX_JOBS_TOKEN)
                    && (reset t <? now))
          (gltokens st) = true
  <-> exists t, token_available st now u t.
Proof.
  rewrite existsb_exists. unfold token_available.
  split; intros [t H]; exists t.
  - destruct H as [Hin Hb]. apply andb_true_iff in Hb. destruct Hb as [Hb Hr].
    apply andb_true_iff in Hb. destruct Hb as [Hu Hc].
    apply user_is_iff in Hu. apply Z.ltb_lt in Hc, Hr. auto.
  - destruct H as [Hin [Hu [Hc Hr]]]. split; [exact Hin |].
    apply user_is_iff in Hu. apply Z.ltb_lt in Hc, Hr.
    now rewrite Hu, Hc, Hr.
Qed.

Lemma ready_filter_iff (st : Store) (u : Z) (i : Intention) :
  previous_empty st (pk i) && (user i =? u) && negb (has_job i) = true
  <-> ready_for st u i.
Proof.
  unfold ready_for. rewrite !andb_true_iff, previous_empty_iff, Z.eqb_eq.
  unfold has_job. destruct (job i); simpl; intuition congruence.
Qed.

Lemma firstn_complete (A : Type) (n : nat) (l : list A) (x : A) :
  In x l -> In x (firstn n l) \/ List.length (firstn n l) = n.
Proof.
  intros Hin. destruct (Nat.le_gt_cases (List.length l) n) as [Hle | Hgt].
  - left. now rewrite firstn_all2.
  - right. apply firstn_length_le. now apply Nat.lt_le_incl.
Qed.

(** X1: [IRawManager.selectable_intentions] returns nothing for a user
    none of whose tokens is both under the cap and past its reset,
    whatever intentions of the user are ready. *)
Theorem raw_selectable_needs_token (now u : Z) (max : nat) (st : Store) :
  (forall t, ~ token_available st now u t) ->
  IRawManager.selectable_intentions now u max st = [].
Proof.
  intros H. unfold IRawManager.selectable_intentions. cbv zeta.
  destruct (existsb _ (gltokens st)) eqn:E; [| reflexivity].
  apply token_available_iff in E. destruct E as [t Ht]. destruct (H t Ht).
Qed.

(** X1, witness: at [Sample.st_full] the token of user 1 holds three
    jobs, and nothing is selectable for user 1 although [i5] is ready. *)
Lemma raw_selectable_needs_token_witness :
  ready_for Sample.st_full 1 Sample.i5
  /\ IRawManager.selectable_intentions Sample.t1 1 5 Sample.st_full = [].
Proof.
  split.
  - repeat split. intros q Hq. exact Hq.
  - apply raw_selectable_needs_token.
    intros t [Hin [Hu [Hc _]]].
    destruct Hin as [<- | [<- | []]]; [| discriminate].
    vm_compute in Hc. discriminate.
Defined.

(** X2: [selectable_intentions], of either manager, returns at most
    [max] intentions, and leaves a ready intention of the user out only
    when it returns [max] of them (for [IRawManager], given an available
    token of the user). *)
Theorem selectable_first_max_ready (now u : Z) (max : nat) (st : Store) :
  (List.length (IRawManager.selectable_intentions now u max st) <= max)%nat
  /\ (List.length (IEnrichedManager.selectable_intentions u max st)
      <= max)%nat
  /\ (forall i, In i (iglenrich st) -> ready_for st u i ->
        In i (IEnrichedManager.selectable_intentions u max st)
        \/ List.length (IEnrichedManager.selectable_intentions u max st)
           = max)
  /\ (forall i t, token_available st now u t ->
        In i (iglraw st) -> ready_for st u i ->
        In i (IRawManager.selectable_intentions now u max st)
        \/ List.length (IRawManager.selectable_intentions now u max st)
           = max).
Proof.
  unfold IRawManager.selectable_intentions,
    IEnrichedManager.selectable_intentions. cbv zeta.
  split; [| split; [| split]].
  - destruct (negb _); [simpl; apply Nat.le_0_l | apply firstn_le_length].
  - apply firstn_le_length.
  - intros i Hin Hr. apply firstn_complete, filter_In.
    split; [exact Hin | now apply ready_filter_iff].
  - intros i t Ht Hin Hr.
    assert (E : existsb (fun t => user_is u t
                  && (jobs_count st (token_id t) <? MAX_JOBS_TOKEN)
                  && (reset t <? now)) (gltokens st) = true)
      by (apply token_available_iff; now exists t).
    rewrite E. simpl negb. cbv iota.
    apply firstn_complete, filter_In.
    split; [exact Hin | now apply ready_filter_iff].
Qed.

(** X2, witness: both ready intentions of user 1 at [Sample.st_sel] are
    selected when [max] is 2. *)
Lemma selectable_first_max_ready_witness :
  token_available Sample.st_sel Sample.t1 1 Sample.token_a
  /\ In Sample.i5
        (IRawManager.selectable_intentions Sample.t1 1 2 Sample.st_sel).
Proof.
  assert (Ht : token_available Sample.st_sel Sample.t1 1 Sample.token_a).
  { split; [now left |]. split; [reflexivity |]. split; reflexivity. }
  split; [exact Ht |].
  destruct (selectable_first_max_ready Sample.t1 1 2 Sample.st_sel)
    as [_ [_ [_ H]]].
  destruct (H Sample.i5 Sample.token_a Ht) as [Hin | Hlen].
  - vm_compute. do 4 right. left. reflexivity.
  - repeat split. intros q Hq. exact Hq.
  - exact Hin.
  - vm_compute. right. left. reflexivity.
Defined.

(** *** IGLRaw.create_job *)

Lemma jobs_count_same_pairs (st st' : Store) (t : Z) :
  gltoken_jobs st' = gltoken_jobs st -> jobs_count st' t = jobs_count st t.
Proof.
  intros E. unfold jobs_count. now rewrite E.
Qed.

Lemma jobs_count_add_ge (t : GLToken) (j : Z) (st : Store) (t' : Z) :
  jobs_count st t' <= jobs_count (token_jobs_add t j st) t'.
Proof.
  unfold jobs_count, token_jobs_add, m2m_add. simpl.
  destruct (has_pair (token_id t, j) (gltoken_jobs st)); [lia |].
  rewrite filter_app, length_app. lia.
Qed.

Lemma jobs_count_add_other (t : GLToken) (j : Z) (st : Store) (t' : Z) :
  token_id t <> t' ->
  jobs_count (token_jobs_add t j st) t' = jobs_count st t'.
Proof.
  intros Hne. pose proof (jobs_count_add t j st t') as Hle.
  pose proof (jobs_count_add_ge t j st t') as Hge.
  apply Z.eqb_neq in Hne. rewrite Hne in Hle. lia.
Qed.

Lemma raw_loop_frame (w : Z) (ts : list GLToken) (self : Intention)
  (jobv : option Job) (st : Store) :
  let st' := snd (IGLRaw.create_job_loop w ts self jobv st) in
  gltokens st' = gltokens st /\ iglraw st' = iglraw st
  /\ iglenrich st' = iglenrich st
  /\ next_intention_id st' = next_intention_id st
  /\ previous st' = previous st
  /\ iglraw_archived st' = iglraw_archived st
  /\ iglenrich_archived st' = iglenrich_archived st.
Proof.
  revert self jobv st. induction ts as [| t ts IH]; intros self jobv st.
  - simpl. repeat split.
  - simpl. destruct (jobs_count st (token_id t) <? MAX_JOBS_TOKEN).
    + destruct (job self) as [j |]; simpl;
        match goal with
        | |- context [IGLRaw.create_job_loop w ts ?a ?b ?c] =>
            specialize (IH a b c)
        end; simpl in IH; exact IH.
    + apply IH.
Qed.

Lemma raw_loop_idle (w : Z) (ts : list GLToken) (self : Intention)
  (jobv : option Job) (st : Store) :
  (forall t, In t ts -> MAX_JOBS_TOKEN <= jobs_count st (token_id t)) ->
  IGLRaw.create_job_loop w ts self jobv st = (self, jobv, st).
Proof.
  induction ts as [| t ts IH]; intros H; [reflexivity |].
  simpl. destruct (jobs_count st (token_id t) <? MAX_JOBS_TOKEN) eqn:E.
  - apply Z.ltb_lt in E. specialize (H t (or_introl eq_refl)). lia.
  - apply IH. intros t' Ht'. apply H. now right.
Qed.

Lemma raw_loop_with_job (w : Z) (ts : list GLToken) (self : Intention)
  (jobv : option Job) (st : Store) (j : Z) :
  job self = Some j ->
  fst (IGLRaw.create_job_loop w ts self jobv st) = (self, jobv)
  /\ jobs (snd (IGLRaw.create_job_loop w ts self jobv st)) = jobs st
  /\ next_job_id (snd (IGLRaw.create_job_loop w ts self jobv st))
     = next_job_id st.
Proof.
  intros Hj. revert st. induction ts as [| t ts IH]; intros st.
  - repeat split.
  - simpl. rewrite Hj.
    destruct (jobs_count st (token_id t) <? MAX_JOBS_TOKEN);
      [apply (IH (token_jobs_add t j st)) | apply IH].
Qed.

Lemma raw_loop_creates (w : Z) (ts : list GLToken) (self : Intention)
  (jobv : option Job) (st : Store) :
  job self = None ->
  (exists t, In t ts /\ jobs_count st (token_id t) < MAX_JOBS_TOKEN) ->
  let r := mkJob (next_job_id st) (Some w) in
  fst (IGLRaw.create_job_loop w ts self jobv st)
  = (with_job self (Some (next_job_id st)), Some r)
  /\ jobs (snd (IGLRaw.create_job_loop w ts self jobv st)) = jobs st ++ [r]
  /\ next_job_id (snd (IGLRaw.create_job_loop w ts self jobv st))
     = next_job_id st + 1.
Proof.
  intros Hj. induction ts as [| t ts IH]; intros [t' [Hin Hc]]; [destruct Hin |].
  simpl. destruct (jobs_count st (token_id t) <? MAX_JOBS_TOKEN) eqn:E.
  - rewrite Hj. simpl.
    match goal with
    | |- context [IGLRaw.create_job_loop w ts ?a ?b ?c] =>
        destruct (@raw_loop_with_job w ts a b c (next_job_id st) eq_refl)
          as [H1 [H2 H3]]
    end.
    rewrite H1, H2, H3. repeat split.
  - apply IH. destruct Hin as [-> | Hin]; [| eauto].
    apply Z.ltb_ge in E. lia.
Qed.

Lemma target_job_with (self : Intention) (st st' : Store) (j : Z) :
  job self = Some j -> target_job self st' = target_job self st.
Proof.
  intros H. unfold target_job. now rewrite H.
Qed.

Lemma raw_loop_pairs (w : Z) (ts : list GLToken) (self : Intention)
  (jobv : option Job) (st : Store) (p : Z * Z) :
  In p (gltoken_jobs (snd (IGLRaw.create_job_loop w ts self jobv st)))
  <-> In p (gltoken_jobs st)
      \/ exists t, In t ts
                   /\ jobs_count st (token_id t) < MAX_JOBS_TOKEN
                   /\ p = (token_id t, target_job self st).
Proof.
  revert self jobv st. induction ts as [| t0 ts IH]; intros self jobv st.
  - simpl. split; [auto | intros [H | [t [[] _]]]; exact H].
  - simpl. destruct (jobs_count st (token_id t0) <? MAX_JOBS_TOKEN) eqn:E.
    + apply Z.ltb_lt in E.
      (* the two branches differ by the job row only *)
      assert (Hstep : forall (self1 : Intention) (jobv1 : option Job)
                             (st1 : Store),
                 gltoken_jobs st1 = gltoken_jobs st ->
                 job self1 = Some (target_job self st) ->
                 In p (gltoken_jobs
                         (snd (IGLRaw.create_job_loop w ts self1 jobv1
                                 (token_jobs_add t0 (target_job self st) st1))))
                 <-> In p (gltoken_jobs st)
                     \/ exists t, In t (t0 :: ts)
                          /\ jobs_count st (token_id t) < MAX_JOBS_TOKEN
                          /\ p = (token_id t, target_job self st)).
      { intros self1 jobv1 st1 Hp Hj1. rewrite IH.
        set (j := target_job self st) in *.
        set (s1 := token_jobs_add t0 j st1).
        assert (Ht : target_job self1 s1 = j)
          by (unfold target_job; now rewrite Hj1).
        rewrite Ht.
        assert (Hin1 : forall q, In q (gltoken_jobs s1)
                                 <-> In q (gltoken_jobs st) \/ q = (token_id t0, j)).
        { intros q. unfold s1, token_jobs_add. simpl. rewrite In_m2m_add.
          now rewrite Hp. }
        assert (Hc1 : forall t', jobs_count st t' <= jobs_count s1 t').
        { intros t'. rewrite <- (jobs_count_same_pairs st st1 t' Hp).
          apply jobs_count_add_ge. }
        assert (Hc2 : forall t', token_id t0 <> t' ->
                                 jobs_count s1 t' = jobs_count st t').
        { intros t' Hne. rewrite <- (jobs_count_same_pairs st st1 t' Hp).
          now apply jobs_count_add_other. }
        rewrite Hin1. split.
        - intros [[H | ->] | [t [Hin [Hc ->]]]].
          + now left.
          + right. exists t0. repeat split; [now left | exact E].
          + right. exists t. repeat split; [now right |].
            specialize (Hc1 (token_id t)). lia.
        - intros [H | [t [[<- | Hin] [Hc ->]]]].
          + left. now left.
          + left. now right.
          + destruct (Z.eq_dec (token_id t0) (token_id t)) as [He | Hne].
            * left. right. now rewrite He.
            * right. exists t. repeat split; [exact Hin |].
              rewrite (Hc2 _ Hne). exact Hc. }
      destruct (job self) as [j |] eqn:J.
      * assert (Hj : target_job self st = j)
          by (unfold target_job; now rewrite J).
        rewrite <- Hj. apply Hstep; [reflexivity |]. now rewrite Hj.
      * assert (Hj : target_job self st = next_job_id st)
          by (unfold target_job; now rewrite J).
        simpl. rewrite <- Hj. apply Hstep; [reflexivity |]. simpl.
        now rewrite Hj.
    + apply Z.ltb_ge in E. rewrite IH. split.
      * intros [H | [t [Hin [Hc ->]]]]; [now left |].
        right. exists t. repeat split; [now right | exact Hc].
      * intros [H | [t [[<- | Hin] [Hc ->]]]]; [now left | lia |].
        right. exists t. repeat split; assumption.
Qed.

Lemma raw_create_job_loop (w : Z) (self : Intention) (st : Store) :
  let l := IGLRaw.create_job_loop
             w (filter (user_is (user self)) (gltokens st)) self None st in
  IGLRaw.create_job w self st = (snd (fst l), fst (fst l), snd l).
Proof.
  unfold IGLRaw.create_job. cbv zeta.
  destruct (IGLRaw.create_job_loop w _ self None st) as [[a b] c].
  reflexivity.
Qed.

Lemma selectable_raw_In (now u : Z) (max : nat) (st : Store) (i : Intention) :
  In i (IRawManager.selectable_intentions now u max st) ->
  (exists t, token_available st now u t)
  /\ In i (iglraw st) /\ ready_for st u i.
Proof.
  unfold IRawManager.selectable_intentions. cbv zeta.
  destruct (existsb _ (gltokens st)) eqn:E; simpl negb; cbv iota;
    [| intros []].
  intros H. apply In_firstn, filter_In in H. destruct H as [Hin Hb].
  split; [now apply token_available_iff |].
  split; [exact Hin | now apply ready_filter_iff].
Qed.

(** X3: an intention that [IRawManager.selectable_intentions] returns
    does get a job from [IGLRaw.create_job]: a new row of the job table,
    with the key next in sequence and the calling worker, assigned to the
    intention object and attached to the available token of the user. *)
Theorem selectable_intention_gets_job
  (now u w : Z) (max : nat) (st : Store) (i : Intention) :
  In i (IRawManager.selectable_intentions now u max st) ->
  let r := mkJob (next_job_id st) (Some w) in
  fst (IGLRaw.create_job w i st) = (Some r, with_job i (Some (job_id r)))
  /\ jobs (snd (IGLRaw.create_job w i st)) = jobs st ++ [r]
  /\ exists t, token_available st now u t
               /\ In (token_id t, job_id r)
                     (gltoken_jobs (snd (IGLRaw.create_job w i st))).
Proof.
  intros H. apply selectable_raw_In in H.
  destruct H as [[t Ht] [Hin [_ [Hu Hj]]]].
  pose proof Ht as [Htin [Htu [Htc _]]].
  assert (Hex : exists t', In t' (filter (user_is (user i)) (gltokens st))
                           /\ jobs_count st (token_id t') < MAX_JOBS_TOKEN).
  { exists t. split; [| exact Htc]. apply filter_In.
    split; [exact Htin |]. apply user_is_iff. now rewrite Hu. }
  destruct (@raw_loop_creates w _ i None st Hj Hex) as [H1 [H2 H3]].
  rewrite raw_create_job_loop. cbv zeta. simpl fst. simpl snd.
  rewrite H1, H2. simpl. repeat split.
  exists t. split; [exact Ht |]. apply raw_loop_pairs. right.
  exists t. split; [| split; [exact Htc |]].
  - apply filter_In. split; [exact Htin |]. apply user_is_iff. now rewrite Hu.
  - unfold target_job. now rewrite Hj.
Qed.

(** X3, witness: [i3], selected at [Sample.st_sel], gets job 4. *)
Lemma selectable_intention_gets_job_witness :
  In Sample.i3 (IRawManager.selectable_intentions Sample.t1 1 2 Sample.st_sel)
  /\ fst (IGLRaw.create_job 7 Sample.i3 Sample.st_sel)
     = (Some (mkJob 4 (Some 7)), with_job Sample.i3 (Some 4)).
Proof.
  assert (H : In Sample.i3
                 (IRawManager.selectable_intentions Sample.t1 1 2
                                                    Sample.st_sel))
    by (vm_compute; left; reflexivity).
  split; [exact H |].
  destruct (@selectable_intention_gets_job Sample.t1 1 7 2 Sample.st_sel
              Sample.i3 H) as [H1 _].
  exact H1.
Defined.

(** X4: when every token of the user already holds [MAX_JOBS_TOKEN] jobs
    (or the user has no token), [IGLRaw.create_job] returns no job and
    changes neither the intention nor the store. *)
Theorem create_job_without_capacity (w : Z) (self : Intention) (st : Store) :
  (forall t, In t (gltokens st) -> token_user t = Some (user self) ->
             MAX_JOBS_TOKEN <= jobs_count st (token_id t)) ->
  IGLRaw.create_job w self st = (None, self, st).
Proof.
  intros H. rewrite raw_create_job_loop. cbv zeta.
  rewrite raw_loop_idle; [reflexivity |].
  intros t Ht. apply filter_In in Ht. destruct Ht as [Hin Hu].
  apply H; [exact Hin | now apply user_is_iff].
Qed.

(** X4, witness: [i5] of user 1 at [Sample.st_full], where the token of
    user 1 holds three jobs. *)
Lemma create_job_without_capacity_witness :
  jobs_count Sample.st_full 1 = 3
  /\ IGLRaw.create_job 7 Sample.i5 Sample.st_full
     = (None, Sample.i5, Sample.st_full).
Proof.
  split; [reflexivity |].
  apply create_job_without_capacity.
  intros t [<- | [<- | []]] Hu; [vm_compute | ]; discriminate.
Defined.

(** X5: [IGLRaw.create_job] attaches its job (the job of the intention,
    or else the one it creates) to every token of the user that holds
    fewer than [MAX_JOBS_TOKEN] jobs, whether or not the token is past
    its reset, and makes no other attachment. *)
Theorem create_job_attaches_tokens_under_cap
  (w : Z) (self : Intention) (st : Store) (p : Z * Z) :
  In p (gltoken_jobs (snd (IGLRaw.create_job w self st)))
  <-> In p (gltoken_jobs st)
      \/ exists t, In t (gltokens st)
                   /\ token_user t = Some (user self)
                   /\ jobs_count st (token_id t) < MAX_JOBS_TOKEN
                   /\ p = (token_id t, target_job self st).
Proof.
  rewrite raw_create_job_loop. cbv zeta. simpl snd. rewrite raw_loop_pairs.
  split; (intros [H | [t H]]; [now left | right; exists t]).
  - destruct H as [Hin [Hc Hp]]. apply filter_In in Hin.
    destruct Hin as [Hin Hu]. apply user_is_iff in Hu. auto.
  - destruct H as [Hin [Hu [Hc Hp]]]. split; [| auto].
    apply filter_In. split; [exact Hin | now apply user_is_iff].
Qed.

(** X6: [IGLRaw.create_job] writes no intention row: the job is assigned
    to the intention object only, and the tables of intentions, the
    [previous] table and the token rows are as before.  It adds at most
    one row to the job table; called on an intention that has a job, it
    adds none, returns no job and leaves the object as it is. *)
Theorem create_job_writes_no_intention
  (w : Z) (self : Intention) (st : Store) :
  let st' := snd (IGLRaw.create_job w self st) in
  iglraw st' = iglraw st /\ iglenrich st' = iglenrich st
  /\ previous st' = previous st /\ gltokens st' = gltokens st
  /\ (jobs st' = jobs st
      \/ jobs st' = jobs st ++ [mkJob (next_job_id st) (Some w)])
  /\ (forall j, job self = Some j ->
                fst (IGLRaw.create_job w self st) = (None, self)
                /\ jobs st' = jobs st).
Proof.
  rewrite raw_create_job_loop. cbv zeta. simpl snd. simpl fst.
  set (ts := filter (user_is (user self)) (gltokens st)).
  destruct (raw_loop_frame w ts self None st)
    as (F1 & F2 & F3 & _ & F5 & _).
  repeat split; try assumption.
  - destruct (job self) as [j |] eqn:J.
    + left. now destruct (@raw_loop_with_job w ts self None st j J) as [_ [H _]].
    + destruct (existsb (fun t => jobs_count st (token_id t) <? MAX_JOBS_TOKEN)
                        ts) eqn:E.
      * right. apply existsb_exists in E. destruct E as [t [Hin Hc]].
        apply Z.ltb_lt in Hc.
        assert (Hex : exists t, In t ts
                        /\ jobs_count st (token_id t) < MAX_JOBS_TOKEN)
          by eauto.
        now destruct (@raw_loop_creates w ts self None st J Hex) as [_ [H _]].
      * left. rewrite raw_loop_idle; [reflexivity |].
        intros t Hin. apply Z.ltb_ge.
        destruct (jobs_count st (token_id t) <? MAX_JOBS_TOKEN) eqn:Hc;
          [| reflexivity].
        assert (existsb (fun t => jobs_count st (token_id t)
                                  <? MAX_JOBS_TOKEN) ts = true)
          by (apply existsb_exists; eauto).
        congruence.
  - destruct (@raw_loop_with_job w ts self None st j H) as [H1 _].
    now rewrite H1.
  - now destruct (@raw_loop_with_job w ts self None st j H) as [_ [H2 _]].
Qed.

(** *** Attachments of tokens to jobs *)

Lemma m2m_add_extends (p : Z * Z) (l : list (Z * Z)) :
  exists added, m2m_add p l = l ++ added.
Proof.
  unfold m2m_add. destruct (has_pair p l).
  - exists []. now rewrite app_nil_r.
  - now exists [p].
Qed.

Lemma extends_trans (A : Type) (a b c : list A) :
  (exists x, b = a ++ x) -> (exists y, c = b ++ y) -> exists z, c = a ++ z.
Proof.
  intros [x ->] [y ->]. exists (x ++ y). now rewrite app_assoc.
Qed.

Lemma extends_refl (A : Type) (a : list A) : exists x, a = a ++ x.
Proof. exists []. now rewrite app_nil_r. Qed.

Lemma attach_all_extends (j : Z) (ts : list GLToken) (st : Store) :
  exists added,
    gltoken_jobs (fold_left (fun s t => token_jobs_add t j s) ts st)
    = gltoken_jobs st ++ added.
Proof.
  revert st. induction ts as [| t ts IH]; intros st; simpl.
  - apply extends_refl.
  - eapply extends_trans; [| apply IH]. simpl. apply m2m_add_extends.
Qed.

Lemma raw_loop_extends (w : Z) (ts : list GLToken) (self : Intention)
  (jobv : option Job) (st : Store) :
  exists added,
    gltoken_jobs (snd (IGLRaw.create_job_loop w ts self jobv st))
    = gltoken_jobs st ++ added.
Proof.
  revert self jobv st. induction ts as [| t ts IH]; intros self jobv st.
  - apply extends_refl.
  - simpl. destruct (jobs_count st (token_id t) <? MAX_JOBS_TOKEN);
      [| apply IH].
    destruct (job self) as [j |]; simpl;
      (eapply extends_trans; [| apply IH]); simpl; apply m2m_add_extends.
Qed.

Lemma jobs_count_extends (st st' : Store) (added : list (Z * Z)) (t : Z) :
  gltoken_jobs st' = gltoken_jobs st ++ added ->
  jobs_count st t <= jobs_count st' t.
Proof.
  intros E. unfold jobs_count. rewrite E, filter_app, length_app. lia.
Qed.

Lemma raw_next_job_frame (w now : Z) (st : Store) :
  let st' := snd (IGLRaw.next_job w now st) in
  gltokens st' = gltokens st /\ gltoken_jobs st' = gltoken_jobs st
  /\ iglraw st' = iglraw st /\ iglenrich st' = iglenrich st
  /\ previous st' = previous st /\ next_job_id st' = next_job_id st.
Proof.
  unfold IGLRaw.next_job.
  destruct (find _ (iglraw st)); [| now repeat split].
  destruct (related_job st i); now repeat split.
Qed.

Lemma enrich_next_job_frame (w : Z) (st : Store) :
  let st' := snd (IGLEnrich.next_job w st) in
  gltokens st' = gltokens st /\ gltoken_jobs st' = gltoken_jobs st
  /\ iglraw st' = iglraw st /\ iglenrich st' = iglenrich st
  /\ previous st' = previous st /\ next_job_id st' = next_job_id st.
Proof.
  unfold IGLEnrich.next_job.
  destruct (find _ (iglenrich st)); [| now repeat split].
  destruct (related_job st i); now repeat split.
Qed.

Lemma enrich_create_previous_frame (now : Z) (self : Intention) (st : Store) :
  let st' := snd (IGLEnrich.create_previous now self st) in
  jobs st' = jobs st /\ next_job_id st' = next_job_id st
  /\ gltokens st' = gltokens st /\ gltoken_jobs st' = gltoken_jobs st
  /\ iglenrich st' = iglenrich st.
Proof.
  unfold IGLEnrich.create_previous.
  destruct (IGLEnrich.raw_matches self st) as [| r [| r' rest]];
    now repeat split.
Qed.

Lemma enrich_running_job_frame_all (self : Intention) (st : Store) :
  let st' := snd (IGLEnrich.running_job self st) in
  jobs st' = jobs st /\ next_job_id st' = next_job_id st
  /\ gltokens st' = gltokens st /\ gltoken_jobs st' = gltoken_jobs st
  /\ iglraw st' = iglraw st /\ previous st' = previous st.
Proof.
  unfold IGLEnrich.running_job.
  destruct (IGLEnrich.candidates self st) as [| c rest]; [now repeat split |].
  destruct (related_job st c); now repeat split.
Qed.

Lemma enrich_create_job_frame (w : Z) (self : Intention) (st : Store) :
  let st' := snd (IGLEnrich.create_job w self st) in
  gltokens st' = gltokens st /\ gltoken_jobs st' = gltoken_jobs st
  /\ iglraw st' = iglraw st /\ iglenrich st' = iglenrich st
  /\ previous st' = previous st.
Proof.
  unfold IGLEnrich.create_job. destruct (job self); now repeat split.
Qed.

Lemma exec_extends (c : call) (st : Store) :
  exists added, gltoken_jobs (exec c st) = gltoken_jobs st ++ added.
Proof.
  destruct c; simpl.
  - destruct (raw_next_job_frame w now st) as [_ [H _]]. rewrite H.
    apply extends_refl.
  - apply extends_refl.
  - unfold IGLRaw.running_job.
    destruct (IGLRaw.candidates self st) as [| c rest]; [apply extends_refl |].
    destruct (related_job st c) as [r |]; [| apply extends_refl].
    cbv zeta. simpl snd.
    match goal with
    | |- context [fold_left ?f ?ts ?s0] =>
        destruct (attach_all_extends (job_id r) ts s0) as [a Ha]
    end.
    exists a. exact Ha.
  - rewrite raw_create_job_loop. cbv zeta. simpl snd. apply raw_loop_extends.
  - destruct (raw_run_frame runner now0 now1 self j st lg) as [_ [H _]].
    rewrite H. apply extends_refl.
  - apply extends_refl.
  - destruct (enrich_next_job_frame w st) as [_ [H _]]. rewrite H.
    apply extends_refl.
  - destruct (enrich_create_previous_frame now self st) as (_ & _ & _ & H & _).
    rewrite H. apply extends_refl.
  - destruct (enrich_running_job_frame_all self st) as (_ & _ & _ & H & _).
    rewrite H. apply extends_refl.
  - destruct (enrich_create_job_frame w self st) as [_ [H _]]. rewrite H.
    apply extends_refl.
  - rewrite enrich_run_frame. apply extends_refl.
  - apply extends_refl.
Qed.

Lemma exec_all_extends (cs : list call) (st : Store) :
  exists added, gltoken_jobs (exec_all cs st) = gltoken_jobs st ++ added.
Proof.
  revert st. induction cs as [| c cs IH]; intros st.
  - apply extends_refl.
  - simpl. eapply extends_trans; [apply exec_extends | apply IH].
Qed.

(** X7: [IGLRaw.create_job] keeps the cap: if no token holds more than
    [MAX_JOBS_TOKEN] jobs before the call, none does after it; and no
    token holds fewer jobs than before. *)
Theorem create_job_respects_cap (w : Z) (self : Intention) (st : Store) :
  within_cap st ->
  within_cap (snd (IGLRaw.create_job w self st))
  /\ forall t, jobs_count st t
               <= jobs_count (snd (IGLRaw.create_job w self st)) t.
Proof.
  intros H. split; [now apply create_job_within_cap |].
  intros t. destruct (exec_extends (RawCreateJob w self) st) as [a Ha].
  simpl in Ha. now apply (jobs_count_extends st _ a).
Qed.

(** X7, witness: the third job of the token of user 1. *)
Lemma create_job_respects_cap_witness :
  within_cap Sample.st_sel
  /\ within_cap (snd (IGLRaw.create_job 7 Sample.i3 Sample.st_sel))
  /\ jobs_count (snd (IGLRaw.create_job 7 Sample.i3 Sample.st_sel)) 1 = 3.
Proof.
  assert (H : within_cap Sample.st_sel).
  { unfold Sample.st_sel. now repeat apply create_and_save_within_cap;
      intros t; vm_compute; discriminate. }
  split; [exact H |].
  split; [apply (create_job_respects_cap 7 Sample.i3 H) | reflexivity].
Defined.

(** X8: no call of the module, [archive] included, ever detaches a job
    from a token: after any sequence of calls the table of attachments
    is the former one with rows appended, so the number of jobs a token
    holds never goes down. *)
Theorem attachments_never_removed (cs : list call) (st : Store) :
  (exists added, gltoken_jobs (exec_all cs st) = gltoken_jobs st ++ added)
  /\ (forall p, In p (gltoken_jobs st) -> In p (gltoken_jobs (exec_all cs st)))
  /\ (forall t, jobs_count st t <= jobs_count (exec_all cs st) t).
Proof.
  destruct (exec_all_extends cs st) as [a Ha].
  split; [now exists a |]. split.
  - intros p Hp. rewrite Ha. apply in_or_app. now left.
  - intros t. now apply (jobs_count_extends st _ a).
Qed.

(** *** One job for the intentions on one repository *)

Lemma raw_create_job_some (w : Z) (self self' : Intention) (st st' : Store)
  (j : Job) :
  IGLRaw.create_job w self st = (Some j, self', st') ->
  job self = None /\ j = mkJob (next_job_id st) (Some w)
  /\ self' = with_job self (Some (next_job_id st))
  /\ jobs st' = jobs st ++ [j] /\ iglraw st' = iglraw st.
Proof.
  rewrite raw_create_job_loop. cbv zeta.
  set (ts := filter (user_is (user self)) (gltokens st)).
  destruct (raw_loop_frame w ts self None st) as (_ & F2 & _).
  destruct (job self) as [j0 |] eqn:J.
  - destruct (@raw_loop_with_job w ts self None st j0 J) as [H1 _].
    rewrite (surjective_pairing (fst (IGLRaw.create_job_loop w ts self None st)))
      in H1.
    intros H. inversion H as [[Ha Hb Hc]]. inversion H1. congruence.
  - destruct (existsb (fun t => jobs_count st (token_id t) <? MAX_JOBS_TOKEN)
                      ts) eqn:E.
    + apply existsb_exists in E. destruct E as [t [Hin Hc]].
      apply Z.ltb_lt in Hc.
      assert (Hex : exists t, In t ts
                      /\ jobs_count st (token_id t) < MAX_JOBS_TOKEN)
        by eauto.
      destruct (@raw_loop_creates w ts self None st J Hex) as [H1 [H2 _]].
      rewrite H1. simpl. intros H. inversion H. subst.
      repeat split; assumption.
    + rewrite raw_loop_idle.
      * simpl. discriminate.
      * intros t Hin. apply Z.ltb_ge.
        destruct (jobs_count st (token_id t) <? MAX_JOBS_TOKEN) eqn:Hc;
          [| reflexivity].
        assert (existsb (fun t => jobs_count st (token_id t)
                                  <? MAX_JOBS_TOKEN) ts = true)
          by (apply existsb_exists; eauto).
        congruence.
Qed.

Lemma candidates_after_save (same : Intention -> bool) (a : Intention)
  (l : list Intention) :
  filter (fun i => same i && has_job i) l = [] ->
  same a && has_job a = true ->
  filter (fun i => same i && has_job i) (save_intention a l) = [a].
Proof.
  intros Hl Ha. unfold save_intention.
  destruct (existsb (fun x => pk x =? pk a) l) eqn:E.
  - induction l as [| x l IH]; simpl in *; [discriminate E |].
    destruct (same x && has_job x) eqn:Ex; [discriminate |].
    destruct (pk x =? pk a); simpl in *.
    + now rewrite Ha, Hl.
    + rewrite Ex. now apply IH.
  - clear E. induction l as [| x l IH]; simpl.
    + now rewrite Ha.
    + simpl in Hl. destruct (same x && has_job x) eqn:Ex; [discriminate |].
      destruct (pk a <? pk x); simpl.
      * now rewrite Ha, Ex, Hl.
      * rewrite Ex. now apply IH.
Qed.

Lemma no_candidates (same : Intention -> bool) (l : list Intention) :
  (forall i, In i l -> same i = true -> job i = None) ->
  filter (fun i => same i && has_job i) l = [].
Proof.
  intros H. induction l as [| x l IH]; [reflexivity |]. simpl.
  destruct (same x) eqn:E; simpl.
  - unfold has_job. rewrite (H x (or_introl eq_refl) E).
    apply IH. intros i Hi. apply H. now right.
  - apply IH. intros i Hi. apply H. now right.
Qed.

Lemma find_job_appended (l : list Job) (r : Job) :
  (forall x, In x l -> job_id x < job_id r) ->
  find (fun x => job_id x =? job_id r) (l ++ [r]) = Some r.
Proof.
  intros H. induction l as [| x l IH]; simpl.
  - now rewrite Z.eqb_refl.
  - destruct (job_id x =? job_id r) eqn:E.
    + apply Z.eqb_eq in E. specialize (H x (or_introl eq_refl)). lia.
    + apply IH. intros y Hy. apply H. now right.
Qed.

(** X9: when no live intention on a repository has a job, and
    [create_job] has made one for an intention on it that the caller
    then saved, [running_job] of any intention of the same model on that
    repository returns that very job and assigns it to the intention:
    the two intentions share one job.  The keys of the job table are
    taken to be those of a sequence. *)
Theorem intentions_on_one_repo_share_job
  (w : Z) (a b a' : Intention) (st st1 : Store) (j : Job) :
  jobs_keyed st ->
  repo_id (irepo b) = repo_id (irepo a) ->
  (IGLRaw.create_job w a st = (Some j, a', st1) ->
   (forall i, In i (iglraw st) ->
              repo_id (irepo i) = repo_id (irepo a) -> job i = None) ->
   fst (IGLRaw.running_job b (save_raw a' st1))
   = (Ok (Some j), with_job b (Some (job_id j))))
  /\
  (IGLEnrich.create_job w a st = (Some j, a', st1) ->
   (forall i, In i (iglenrich st) ->
              repo_id (irepo i) = repo_id (irepo a) -> job i = None) ->
   fst (IGLEnrich.running_job b (save_enrich a' st1))
   = (Ok (Some j), with_job b (Some (job_id j)))).
Proof.
  intros [_ Hk] Hb. split.
  - intros Hc Hnone.
    apply raw_create_job_some in Hc.
    destruct Hc as (Ja & -> & -> & Hjobs & Hraw).
    unfold IGLRaw.running_job, IGLRaw.candidates, save_raw. simpl.
    rewrite Hraw.
    rewrite (candidates_after_save
               (fun i => same_repo (irepo i) (irepo b))).
    + unfold related_job. simpl. unfold get_job. simpl. rewrite Hjobs.
      pose proof (find_job_appended (jobs st)
                    (mkJob (next_job_id st) (Some w)) Hk) as Hf.
      simpl in Hf. rewrite Hf. reflexivity.
    + apply no_candidates. intros i Hi Hs. apply Hnone; [exact Hi |].
      apply Z.eqb_eq in Hs. congruence.
    + simpl. unfold same_repo. simpl. rewrite Hb. now rewrite Z.eqb_refl.
  - unfold IGLEnrich.create_job. destruct (job a) eqn:Ja; [discriminate |].
    simpl. intros Hc Hnone. inversion Hc. subst. clear Hc.
    unfold IGLEnrich.running_job, IGLEnrich.candidates, save_enrich. simpl.
    rewrite (candidates_after_save
               (fun i => same_repo (irepo i) (irepo b))).
    + unfold related_job. simpl. unfold get_job. simpl.
      pose proof (find_job_appended (jobs st)
                    (mkJob (next_job_id st) (Some w)) Hk) as Hf.
      simpl in Hf. rewrite Hf. reflexivity.
    + apply no_candidates. intros i Hi Hs. apply Hnone; [exact Hi |].
      apply Z.eqb_eq in Hs. congruence.
    + simpl. unfold same_repo. simpl. rewrite Hb. now rewrite Z.eqb_refl.
Qed.

(** X9, witness: from [Sample.st_cap], the job created for [i4] is the
    one [running_job] gives [i5], on the same repository. *)
Lemma intentions_on_one_repo_share_job_witness :
  jobs_keyed Sample.st_cap
  /\ fst (IGLRaw.running_job Sample.i5
            (save_raw (with_job Sample.i4 (Some 1))
                      (snd (IGLRaw.create_job 7 Sample.i4 Sample.st_cap))))
     = (Ok (Some (mkJob 1 (Some 7))), with_job Sample.i5 (Some 1)).
Proof.
  assert (Hk : jobs_keyed Sample.st_cap).
  { split; [constructor | intros r []]. }
  split; [exact Hk |].
  destruct (@intentions_on_one_repo_share_job 7 Sample.i4 Sample.i5
              (with_job Sample.i4 (Some 1)) Sample.st_cap
              (snd (IGLRaw.create_job 7 Sample.i4 Sample.st_cap))
              (mkJob 1 (Some 7)) Hk eq_refl) as [H _].
  apply H; [reflexivity |].
  intros i Hi _. simpl in Hi.
  destruct Hi as [<- | [<- | [<- | [<- | [<- | []]]]]]; reflexivity.
Defined.

(** *** IGLRaw.run: tokens and retries *)

Lemma raw_run_soft (GitLabRaw : string -> string -> result Z)
  (now0 now1 : Z) (self : Intention) (j : Job) (st st' : Store)
  (lg lg' : list Handler) (tok : GLToken) :
  IGLRaw.ready_token st now0 j = Some tok ->
  IGLRaw.run GitLabRaw now0 now1 self j st lg = (Ok false, st', lg') ->
  exists r, st' = set_gltokens st (save_token (IGLRaw.with_reset tok r)
                                              (gltokens st)).
Proof.
  intros Htok. unfold IGLRaw.run. rewrite Htok. cbv zeta.
  repeat match goal with
         | |- context [if ?b then _ else _] => destruct b
         | |- context [match ?x with Ok _ => _ | Raise _ => _ end] =>
             destruct x
         end; intros H; inversion H; eauto.
Qed.

Lemma In_save_token (r t : GLToken) (l : list GLToken) :
  NoDup (map token_id l) -> In t (save_token r l) ->
  t = r \/ (In t l /\ token_id t <> token_id r).
Proof.
  induction l as [| x l IH]; simpl; intros Hn Hin.
  - destruct Hin as [<- | []]. now left.
  - inversion Hn as [| ? ? Hx Hl]. subst.
    destruct (token_id x =? token_id r) eqn:E.
    + apply Z.eqb_eq in E. destruct Hin as [<- | Hin]; [now left |].
      right. split; [now right |]. intros He. apply Hx. rewrite E, <- He.
      now apply in_map.
    + apply Z.eqb_neq in E. destruct Hin as [<- | Hin].
      * right. split; [now left | exact E].
      * destruct (IH Hl Hin) as [-> | [H1 H2]]; [now left |].
        right. split; [now right | exact H2].
Qed.

(** X10: after a run that ends in a retry, [next_job] does not offer
    the job again as long as the new [reset] of the token used has not
    passed, provided no other token attached to the job is past its own
    reset by then.  The keys of the token table are taken to be
    distinct. *)
Theorem retry_waits_for_reset
  (GitLabRaw : string -> string -> result Z) (now0 now1 now' : Z)
  (self : Intention) (j : Job) (st st' : Store) (lg lg' : list Handler)
  (tok : GLToken) :
  NoDup (map token_id (gltokens st)) ->
  IGLRaw.ready_token st now0 j = Some tok ->
  IGLRaw.run GitLabRaw now0 now1 self j st lg = (Ok false, st', lg') ->
  (forall t, In t (gltokens st) ->
             In (token_id t, job_id j) (gltoken_jobs st) ->
             token_id t <> token_id tok -> now' <= reset t) ->
  exists tok',
    get_token st' (token_id tok) = Some tok'
    /\ token tok' = token tok
    /\ (now' <= reset tok' ->
        forall w j', fst (IGLRaw.next_job w now' st') = Some j' ->
                     job_id j' <> job_id j).
Proof.
  intros Hn Htok Hrun Hothers.
  destruct (raw_run_soft _ _ _ _ _ _ _ Htok Hrun) as [r ->].
  exists (IGLRaw.with_reset tok r). split; [| split; [reflexivity |]].
  - unfold get_token. simpl.
    apply (find_save_token (IGLRaw.with_reset tok r)).
  - simpl. intros Hr w j' Hj'.
    pose proof (raw_next_job_cases w now'
                  (set_gltokens st (save_token (IGLRaw.with_reset tok r)
                                               (gltokens st)))) as Hc.
    destruct (IGLRaw.next_job w now' _) as [[j0 |] s0]; simpl in Hj';
      [| discriminate].
    inversion Hj'. subst j0.
    destruct Hc as [i [r0 [_ [_ [[t [Hin [Hp Ht]]] [-> _]]]]]].
    simpl in *. intros He. rewrite He in Hp.
    apply In_save_token in Hin; [| exact Hn].
    destruct Hin as [-> | [Hin Hne]].
    + simpl in Ht. lia.
    + specialize (Hothers t Hin Hp Hne). lia.
Qed.

(** X10, witness: at [Sample.st_run], ten minutes after a run that asked
    for a retry after 30 minutes, the job is not offered. *)
Lemma retry_waits_for_reset_witness :
  let st' := snd (fst (IGLRaw.run (Sample.returns 30) Sample.t1 Sample.t2
                                  Sample.raw1 Sample.job1 Sample.st_run []))
  in
  map reset (gltokens st') = [Sample.t2 + 30 * MINUTE]
  /\ forall w j', fst (IGLRaw.next_job w (Sample.t2 + 10 * MINUTE) st')
                  = Some j' -> job_id j' <> 1.
Proof.
  cbv zeta. split; [reflexivity |].
  destruct (@retry_waits_for_reset (Sample.returns 30) Sample.t1 Sample.t2
              (Sample.t2 + 10 * MINUTE) Sample.raw1 Sample.job1 Sample.st_run
              (snd (fst (IGLRaw.run (Sample.returns 30) Sample.t1 Sample.t2
                           Sample.raw1 Sample.job1 Sample.st_run [])))
              [] [] Sample.token1)
    as [tok' [Hg [_ H]]].
  - repeat constructor. intros [].
  - reflexivity.
  - reflexivity.
  - intros t [<- | []] _ Hne. now destruct Hne.
  - apply H. vm_compute in Hg. inversion Hg. vm_compute. discriminate.
Defined.

(** X11: when no token attached to the job is past its reset,
    [IGLRaw.run] raises [Job.StopException] at once: the runner is not
    called (the outcome is the same for every runner), the store and the
    handlers of the logger are untouched. *)
Theorem raw_run_without_ready_token
  (GitLabRaw : string -> string -> result Z) (now0 now1 : Z)
  (self : Intention) (j : Job) (st : Store) (lg : list Handler) :
  (forall t, In t (gltokens st) ->
             In (token_id t, job_id j) (gltoken_jobs st) ->
             now0 <= reset t) ->
  IGLRaw.run GitLabRaw now0 now1 self j st lg = (Raise StopException, st, lg).
Proof.
  intros H. unfold IGLRaw.run.
  destruct (IGLRaw.ready_token st now0 j) as [tok |] eqn:E; [| reflexivity].
  unfold IGLRaw.ready_token in E. apply find_some in E.
  destruct E as [Hin Hb]. apply andb_true_iff in Hb. destruct Hb as [Hp Hr].
  apply has_pair_In in Hp. apply Z.ltb_lt in Hr.
  specialize (H tok Hin Hp). lia.
Qed.

(** X11, witness: [Sample.st_run] at the instant of the reset of its
    token. *)
Lemma raw_run_without_ready_token_witness :
  IGLRaw.run (Sample.returns 0) Sample.t0 Sample.t1
             Sample.raw1 Sample.job1 Sample.st_run []
  = (Raise StopException, Sample.st_run, []).
Proof.
  apply raw_run_without_ready_token.
  intros t [<- | []] _. simpl. apply Z.le_refl.
Defined.

(** X12: [IGLRaw.run] lets no exception of the runner through: what it
    raises is [Job.StopException] or, from the date arithmetic,
    [OverflowError]; in particular a repository without an instance,
    whose URL cannot be built, ends in [Job.StopException].  The store
    changes only when [run] returns false. *)
Theorem raw_run_raises_only_stop_or_overflow
  (GitLabRaw : string -> string -> result Z) (now0 now1 : Z)
  (self : Intention) (j : Job) (st : Store) (lg : list Handler) :
  let out := IGLRaw.run GitLabRaw now0 now1 self j st lg in
  (forall e, fst (fst out) = Raise e ->
             (e = StopException \/ e = OverflowError) /\ snd (fst out) = st)
  /\ (fst (fst out) = Ok true -> snd (fst out) = st)
  /\ (instance (irepo self) = None -> fst (fst out) = Raise StopException).
Proof.
  cbv zeta. unfold IGLRaw.run, url, timedelta_minutes, datetime_add.
  destruct (IGLRaw.ready_token st now0 j) as [tok |]; cbv zeta;
    [destruct (instance (irepo self)) as [inst |];
     [destruct (GitLabRaw _ (token tok)) as [n | e0] |] |];
    cbn [Z.eqb Pos.eqb negb];
    repeat match goal with
           | |- context [if ?b then _ else _] => destruct b
           end;
    simpl;
    (split;
     [intros e He; inversion He; subst; auto
     | split; intros He; try discriminate He; reflexivity]).
Qed.

(** *** IGLEnrich.run *)

(** X13: [IGLEnrich.run] never writes to the store and never returns
    false.  When the URL of the repository can be built, an empty output
    of the runner makes it return true, any other output makes it raise
    [Job.StopException], and an exception of the runner leaves [run] as
    it is, not turned into [Job.StopException]; a repository without an
    instance ends in [AttributeError]. *)
Theorem enrich_run_outcomes (GitLabEnrich : string -> result string)
  (self : Intention) (j : Job) (st : Store) (lg : list Handler) :
  let out := IGLEnrich.run GitLabEnrich self j st lg in
  snd (fst out) = st
  /\ fst (fst out) <> Ok false
  /\ (forall u, url (irepo self) = Ok u ->
        (GitLabEnrich u = Ok EmptyString -> fst (fst out) = Ok true)
        /\ (forall msg, GitLabEnrich u = Ok msg -> msg <> EmptyString ->
                        fst (fst out) = Raise StopException)
        /\ (forall e, GitLabEnrich u = Raise e -> fst (fst out) = Raise e))
  /\ (instance (irepo self) = None -> fst (fst out) = Raise AttributeError).
Proof.
  cbv zeta. split; [apply enrich_run_frame |]. split; [| split].
  - unfold IGLEnrich.run.
    destruct (url (irepo self)) as [u | e]; [| discriminate].
    destruct (GitLabEnrich u) as [msg | e]; [| discriminate].
    cbv zeta. destruct (negb _); discriminate.
  - intros u Hu. unfold IGLEnrich.run. rewrite Hu. split; [| split].
    + intros ->. reflexivity.
    + intros msg -> Hne. cbv zeta.
      apply String.eqb_neq in Hne. now rewrite Hne.
    + intros e ->. reflexivity.
  - intros Hi. unfold IGLEnrich.run, url. now rewrite Hi.
Qed.

(** *** Prerequisites, from creation to archive *)

Lemma enrich_create_previous_ok (now : Z) (e r : Intention)
  (st st1 : Store) :
  IGLEnrich.create_previous now e st = (Ok [r], st1) ->
  previous st1 = m2m_add (pk e, pk r) (previous st)
  /\ iglenrich st1 = iglenrich st
  /\ iglraw_archived st1 = iglraw_archived st
  /\ user r = user e
  /\ repo_id (irepo r) = repo_id (irepo e).
Proof.
  unfold IGLEnrich.create_previous.
  destruct (IGLEnrich.raw_matches e st) as [| x [| y rest]] eqn:M;
    intros H; inversion H; subst; clear H.
  - repeat split.
  - assert (Hx : In r (IGLEnrich.raw_matches e st)) by (rewrite M; now left).
    apply filter_In in Hx. destruct Hx as [_ Hb].
    apply andb_true_iff in Hb. destruct Hb as [Hs Hu].
    apply Z.eqb_eq in Hs, Hu. repeat split; assumption.
Qed.

Lemma firstn_length_all (A : Type) (f : A -> bool) (l : list A) :
  firstn (List.length l) (filter f l) = filter f l.
Proof.
  apply firstn_all2. apply filter_length_le.
Qed.

(** X14: an enrich intention that is ready stops being selectable once
    [create_previous] has registered its raw prerequisite, whatever
    [max]; and once that prerequisite is archived, which deletes its row
    and its entries of [previous] and records one archive row with the
    given status, the enrich intention is ready and selectable again. *)
Theorem prerequisite_blocks_until_archived
  (now : Z) (s : status) (max : nat) (e r : Intention) (st st1 : Store) :
  In e (iglenrich st) -> ready_for st (user e) e ->
  IGLEnrich.create_previous now e st = (Ok [r], st1) ->
  ~ In e (IEnrichedManager.selectable_intentions (user e) max st1)
  /\ (let st2 := IGLRaw.archive s r st1 in
      ready_for st2 (user e) e
      /\ In e (IEnrichedManager.selectable_intentions
                 (user e) (List.length (iglenrich st)) st2)
      /\ (forall i, In i (iglraw st2) -> pk i <> pk r)
      /\ iglraw_archived st2
         = iglraw_archived st ++ [mkArchived (user e) (irepo r) (created r) s]).
Proof.
  intros Hin [Hp [_ Hj]] Hc.
  apply enrich_create_previous_ok in Hc.
  destruct Hc as (Hprev & Henr & Harch & Hu & _).
  split.
  - unfold IEnrichedManager.selectable_intentions. intros H.
    apply In_firstn, filter_In in H. destruct H as [_ Hb].
    apply ready_filter_iff in Hb. destruct Hb as [Hq _].
    apply (Hq (pk r)). rewrite Hprev. apply In_m2m_add. now right.
  - cbv zeta.
    assert (Hr : ready_for (IGLRaw.archive s r st1) (user e) e).
    { split; [| split; [reflexivity | exact Hj]].
      intros q Hq. simpl in Hq. unfold drop_previous in Hq.
      apply filter_In in Hq. destruct Hq as [Hq Hb]. simpl in Hb.
      rewrite Hprev in Hq. apply In_m2m_add in Hq.
      destruct Hq as [Hq | Hq].
      - exact (Hp q Hq).
      - inversion Hq. subst q. rewrite Z.eqb_refl, orb_true_r in Hb.
        discriminate. }
    split; [exact Hr |]. split; [| split].
    + unfold IEnrichedManager.selectable_intentions. simpl iglenrich.
      rewrite Henr, firstn_length_all. apply filter_In.
      split; [exact Hin | now apply ready_filter_iff].
    + intros i Hi. simpl in Hi. unfold delete_intention in Hi.
      apply filter_In in Hi. destruct Hi as [_ Hb].
      apply negb_true_iff, Z.eqb_neq in Hb. exact Hb.
    + simpl. now rewrite Harch, Hu.
Qed.

(** X14, witness: the second intention of [Sample.st_dep]. *)
Lemma prerequisite_blocks_until_archived_witness :
  let raw := mkIntention 3 1 Sample.repo1 None Sample.t1 in
  let st1 := snd (IGLEnrich.create_previous Sample.t1 Sample.enrichB
                                            Sample.st_dep) in
  ~ In Sample.enrichB (IEnrichedManager.selectable_intentions 1 5 st1)
  /\ In Sample.enrichB
        (IEnrichedManager.selectable_intentions 1 2
           (IGLRaw.archive OK raw st1)).
Proof.
  cbv zeta.
  destruct (@prerequisite_blocks_until_archived Sample.t1 OK 5 Sample.enrichB
              (mkIntention 3 1 Sample.repo1 None Sample.t1) Sample.st_dep
              (snd (IGLEnrich.create_previous Sample.t1 Sample.enrichB
                                              Sample.st_dep)))
    as [H1 [_ [H2 _]]].
  - right. left. reflexivity.
  - repeat split. intros q Hq. exact Hq.
  - reflexivity.
  - split; [exact H1 | exact H2].
Defined.

(** *** next_job: which job, and what it leaves alone *)

Lemma find_split (A : Type) (f : A -> bool) (l : list A) (x : A) :
  find f l = Some x ->
  exists l1 l2, l = l1 ++ x :: l2 /\ forall y, In y l1 -> f y = false.
Proof.
  induction l as [| a l IH]; simpl; [discriminate |].
  destruct (f a) eqn:E.
  - intros H. inversion H. subst. exists [], l. split; [reflexivity |].
    intros y [].
  - intros H. destruct (IH H) as [l1 [l2 [-> Hl]]].
    exists (a :: l1), l2. split; [reflexivity |].
    intros y [<- | Hy]; [exact E | now apply Hl].
Qed.

Lemma map_save_job (r : Job) (l : list Job) (x : Job) :
  find (fun y => job_id y =? job_id r) l = Some x ->
  map job_id (save_job r l) = map job_id l.
Proof.
  induction l as [| a l IH]; simpl; [discriminate |].
  destruct (job_id a =? job_id r) eqn:E.
  - intros _. simpl. apply Z.eqb_eq in E. now rewrite E.
  - intros H. simpl. now rewrite IH.
Qed.

(** X15: the job that [next_job] returns is that of the first waiting
    intention in the order of the table: no intention before it is
    waiting.  The call creates and deletes no job row (the keys of the
    job table and the next key are as before) and writes to no other
    table. *)
Theorem next_job_takes_first_waiting (w now : Z) (st : Store) :
  match IGLRaw.next_job w now st with
  | (Some j, st') =>
      (exists before i after,
          iglraw st = before ++ i :: after
          /\ job i = Some (job_id j)
          /\ forall i', In i' before ->
               ~ exists r, attached_unclaimed st i' r
                           /\ token_past_reset st now (job_id r))
      /\ map job_id (jobs st') = map job_id (jobs st)
      /\ next_job_id st' = next_job_id st
      /\ gltokens st' = gltokens st /\ gltoken_jobs st' = gltoken_jobs st
      /\ iglraw st' = iglraw st /\ iglenrich st' = iglenrich st
  | (None, _) => True
  end
  /\
  match IGLEnrich.next_job w st with
  | (Some j, st') =>
      (exists before i after,
          iglenrich st = before ++ i :: after
          /\ job i = Some (job_id j)
          /\ forall i', In i' before ->
               ~ exists r, attached_unclaimed st i' r)
      /\ map job_id (jobs st') = map job_id (jobs st)
      /\ next_job_id st' = next_job_id st
      /\ gltokens st' = gltokens st /\ gltoken_jobs st' = gltoken_jobs st
      /\ iglraw st' = iglraw st /\ iglenrich st' = iglenrich st
  | (None, _) => True
  end.
Proof.
  split.
  - unfold IGLRaw.next_job.
    destruct (find (IGLRaw.waiting st now) (iglraw st)) as [i |] eqn:F;
      [| exact I].
    destruct (find_split _ _ F) as [l1 [l2 [Hl Hbefore]]].
    apply find_some in F. destruct F as [_ Hw].
    apply raw_waiting_iff in Hw. destruct Hw as [r [[Hj [Hg Hn]] _]].
    rewrite (attached_related_job _ _ Hj Hg). unfold assign_worker.
    split; [| repeat split].
    + exists l1, i, l2. repeat split; [exact Hl | exact Hj |].
      intros i' Hi' Hex. apply raw_waiting_iff in Hex.
      rewrite (Hbefore i' Hi') in Hex. discriminate.
    + simpl. apply (map_save_job (mkJob (job_id r) (Some w)) (jobs st) (x := r)).
      exact Hg.
  - unfold IGLEnrich.next_job.
    destruct (find (IGLEnrich.waiting st) (iglenrich st)) as [i |] eqn:F;
      [| exact I].
    destruct (find_split _ _ F) as [l1 [l2 [Hl Hbefore]]].
    apply find_some in F. destruct F as [_ Hw].
    apply enrich_waiting_iff in Hw. destruct Hw as [r [Hj [Hg Hn]]].
    rewrite (attached_related_job _ _ Hj Hg). unfold assign_worker.
    split; [| repeat split].
    + exists l1, i, l2. repeat split; [exact Hl | exact Hj |].
      intros i' Hi' Hex. apply enrich_waiting_iff in Hex.
      rewrite (Hbefore i' Hi') in Hex. discriminate.
    + simpl. apply (map_save_job (mkJob (job_id r) (Some w)) (jobs st) (x := r)).
      exact Hg.
Qed.

(** *** The keys of the job table *)

Lemma jobs_keyed_same (st st' : Store) :
  map job_id (jobs st') = map job_id (jobs st) ->
  next_job_id st' = next_job_id st ->
  jobs_keyed st -> jobs_keyed st'.
Proof.
  intros Hm Hn [Hd Hb]. split.
  - now rewrite Hm.
  - intros r Hr. rewrite Hn.
    assert (Hi : In (job_id r) (map job_id (jobs st)))
      by (rewrite <- Hm; now apply in_map).
    apply in_map_iff in Hi. destruct Hi as [r0 [<- Hr0]]. now apply Hb.
Qed.

Lemma jobs_keyed_create_job_row (w : Z) (st : Store) :
  jobs_keyed st -> jobs_keyed (snd (create_job_row w st)).
Proof.
  intros [Hd Hb]. split; simpl.
  - rewrite map_app. simpl.
    apply NoDup_app; [exact Hd | repeat constructor; intros [] |].
    intros x Hx [<- | []]. apply in_map_iff in Hx.
    destruct Hx as [r [He Hr]]. specialize (Hb r Hr). lia.
  - intros r Hr. apply in_app_or in Hr. destruct Hr as [Hr | [<- | []]].
    + specialize (Hb r Hr). lia.
    + simpl. lia.
Qed.

Lemma jobs_keyed_raw_loop (w : Z) (ts : list GLToken) (self : Intention)
  (jobv : option Job) (st : Store) :
  jobs_keyed st ->
  jobs_keyed (snd (IGLRaw.create_job_loop w ts self jobv st)).
Proof.
  revert self jobv st. induction ts as [| t ts IH]; intros self jobv st H.
  - exact H.
  - simpl. destruct (jobs_count st (token_id t) <? MAX_JOBS_TOKEN);
      [| now apply IH].
    destruct (job self) as [j |]; simpl; apply IH.
    + now apply (@jobs_keyed_same st).
    + apply (@jobs_keyed_same (snd (create_job_row w st))); try reflexivity.
      now apply jobs_keyed_create_job_row.
Qed.

Lemma jobs_keyed_assign (w : Z) (r : Job) (st : Store) :
  get_job st (job_id r) = Some r ->
  jobs_keyed st -> jobs_keyed (snd (assign_worker w r st)).
Proof.
  intros Hg. apply jobs_keyed_same; [| reflexivity]. simpl.
  apply (map_save_job (mkJob (job_id r) (Some w)) (jobs st) (x := r)).
  exact Hg.
Qed.

Lemma jobs_keyed_exec (c : call) (st : Store) :
  jobs_keyed st -> jobs_keyed (exec c st).
Proof.
  intros H. destruct c; simpl.
  - unfold IGLRaw.next_job.
    destruct (find _ (iglraw st)) as [i |]; [| exact H].
    destruct (related_job st i) as [r |] eqn:R; [| exact H].
    apply related_job_attached in R. now apply jobs_keyed_assign.
  - exact H.
  - unfold IGLRaw.running_job.
    destruct (IGLRaw.candidates self st) as [| c rest]; [exact H |].
    destruct (related_job st c) as [r |]; [| exact H].
    cbv zeta. simpl snd.
    match goal with
    | |- context [fold_left ?f ?ts ?s0] =>
        destruct (attach_all_frame (job_id r) ts s0) as (Hj & Hn & _)
    end.
    apply (@jobs_keyed_same st); [now rewrite Hj | now rewrite Hn | exact H].
  - rewrite raw_create_job_loop. cbv zeta. simpl snd.
    now apply jobs_keyed_raw_loop.
  - destruct (raw_run_frame runner now0 now1 self j st lg) as [Hj _].
    apply (@jobs_keyed_same st); [now rewrite Hj | | exact H].
    unfold IGLRaw.run.
    destruct (IGLRaw.ready_token st now0 j) as [tok |]; [| reflexivity].
    cbv zeta.
    repeat match goal with
           | |- context [if ?b then _ else _] => destruct b
           | |- context [match ?x with Ok _ => _ | Raise _ => _ end] =>
               destruct x
           end; reflexivity.
  - now apply (@jobs_keyed_same st).
  - unfold IGLEnrich.next_job.
    destruct (find _ (iglenrich st)) as [i |]; [| exact H].
    destruct (related_job st i) as [r |] eqn:R; [| exact H].
    apply related_job_attached in R. now apply jobs_keyed_assign.
  - destruct (enrich_create_previous_frame now self st) as (Hj & Hn & _).
    apply (@jobs_keyed_same st); [now rewrite Hj | exact Hn | exact H].
  - destruct (enrich_running_job_frame_all self st) as (Hj & Hn & _).
    apply (@jobs_keyed_same st); [now rewrite Hj | exact Hn | exact H].
  - unfold IGLEnrich.create_job. destruct (job self); [exact H |].
    now apply (jobs_keyed_create_job_row w).
  - now rewrite enrich_run_frame.
  - now apply (@jobs_keyed_same st).
Qed.

(** X16: every call of the module keeps the keys of the job table
    distinct and below the next key of the sequence, and so does every
    sequence of calls: a job created by [create_job] never takes the key
    of an existing job. *)
Theorem job_keys_stay_distinct (cs : list call) (st : Store) :
  jobs_keyed st -> jobs_keyed (exec_all cs st).
Proof.
  revert st. induction cs as [| c cs IH]; intros st H; [exact H |].
  simpl. apply IH. now apply jobs_keyed_exec.
Qed.

(** X16, witness: two jobs created from the empty job table of
    [Sample.st_cap]. *)
Lemma job_keys_stay_distinct_witness :
  jobs_keyed Sample.st_cap
  /\ jobs_keyed (exec_all [RawCreateJob 7 Sample.i1;
                           EnrichCreateJob 8 Sample.enrichB]
                          Sample.st_cap)
  /\ map job_id (jobs (exec_all [RawCreateJob 7 Sample.i1;
                                 EnrichCreateJob 8 Sample.enrichB]
                                Sample.st_cap)) = [1; 2].
Proof.
  assert (Hk : jobs_keyed Sample.st_cap).
  { split; [constructor | intros r []]. }
  split; [exact Hk |]. split; [| reflexivity].
  apply (job_keys_stay_distinct _ Hk).
Defined.

(** *** Token rows *)

Lemma map_save_token (tok : GLToken) (r : Z) (l : list GLToken) :
  In tok l ->
  map token_id (save_token (IGLRaw.with_reset tok r) l) = map token_id l.
Proof.
  induction l as [| x l IH]; simpl; [intros [] |].
  intros Hin. destruct (token_id x =? token_id tok) eqn:E; simpl.
  - apply Z.eqb_eq in E. now rewrite E.
  - rewrite IH; [reflexivity |]. destruct Hin as [-> | Hin]; [| exact Hin].
    rewrite Z.eqb_refl in E. discriminate.
Qed.

Lemma In_save_token_weak (r t : GLToken) (l : list GLToken) :
  In t (save_token r l) -> t = r \/ In t l.
Proof.
  induction l as [| x l IH]; simpl.
  - intros [<- | []]. now left.
  - destruct (token_id x =? token_id r).
    + intros [<- | H]; [now left | right; now right].
    + intros [<- | H]; [right; now left |].
      destruct (IH H) as [-> | H']; [now left | right; now right].
Qed.

Lemma raw_run_tokens (GitLabRaw : string -> string -> result Z)
  (now0 now1 : Z) (self : Intention) (j : Job) (st : Store)
  (lg : list Handler) :
  gltokens (snd (fst (IGLRaw.run GitLabRaw now0 now1 self j st lg)))
  = gltokens st
  \/ exists tok r,
       In tok (gltokens st)
       /\ gltokens (snd (fst (IGLRaw.run GitLabRaw now0 now1 self j st lg)))
          = save_token (IGLRaw.with_reset tok r) (gltokens st).
Proof.
  unfold IGLRaw.run.
  destruct (IGLRaw.ready_token st now0 j) as [tok |] eqn:E; [| now left].
  unfold IGLRaw.ready_token in E. apply find_some in E. destruct E as [Hin _].
  cbv zeta.
  repeat match goal with
         | |- context [if ?b then _ else _] => destruct b
         | |- context [match ?x with Ok _ => _ | Raise _ => _ end] =>
             destruct x
         end; simpl; eauto.
Qed.

Lemma tokens_unchanged_unless_run (c : call) (st : Store) :
  (forall runner now0 now1 self j lg,
      c <> RawRun runner now0 now1 self j lg) ->
  gltokens (exec c st) = gltokens st.
Proof.
  intros Hc. destruct c; simpl.
  - now destruct (raw_next_job_frame w now st) as [H _].
  - reflexivity.
  - unfold IGLRaw.running_job.
    destruct (IGLRaw.candidates self st) as [| c rest]; [reflexivity |].
    destruct (related_job st c) as [r |]; [| reflexivity].
    cbv zeta. simpl snd.
    match goal with
    | |- context [fold_left ?f ?ts ?s0] =>
        destruct (attach_all_frame (job_id r) ts s0) as (_ & _ & Ht & _)
    end.
    exact Ht.
  - rewrite raw_create_job_loop. cbv zeta. simpl snd.
    now destruct (raw_loop_frame w (filter (user_is (user self)) (gltokens st))
                    self None st) as [H _].
  - destruct (Hc runner now0 now1 self j lg eq_refl).
  - reflexivity.
  - now destruct (enrich_next_job_frame w st) as [H _].
  - now destruct (enrich_create_previous_frame now self st) as (_ & _ & H & _).
  - now destruct (enrich_running_job_frame_all self st) as (_ & _ & H & _).
  - now destruct (enrich_create_job_frame w self st) as [H _].
  - now rewrite enrich_run_frame.
  - reflexivity.
Qed.

(** X17: no call of the module creates or deletes a token: the keys of
    the token table stay the same, in the same order, and every token
    row keeps its secret and its owner.  Only [IGLRaw.run] writes to the
    table at all (it can change one [reset]); after any other call the
    token rows are those of before. *)
Theorem tokens_written_only_by_run (c : call) (st : Store) :
  map token_id (gltokens (exec c st)) = map token_id (gltokens st)
  /\ (forall t', In t' (gltokens (exec c st)) ->
        exists t, In t (gltokens st) /\ token_id t' = token_id t
                  /\ token t' = token t /\ token_user t' = token_user t)
  /\ ((forall runner now0 now1 self j lg,
          c <> RawRun runner now0 now1 self j lg) ->
      gltokens (exec c st) = gltokens st).
Proof.
  assert (Hrun : forall runner now0 now1 self j lg,
             c = RawRun runner now0 now1 self j lg ->
             map token_id (gltokens (exec c st)) = map token_id (gltokens st)
             /\ (forall t', In t' (gltokens (exec c st)) ->
                   exists t, In t (gltokens st) /\ token_id t' = token_id t
                     /\ token t' = token t /\ token_user t' = token_user t)).
  { intros runner now0 now1 self j lg ->. simpl.
    destruct (raw_run_tokens runner now0 now1 self j st lg)
      as [-> | [tok [r [Hin ->]]]].
    - split; [reflexivity |]. intros t' Ht'. exists t'. auto.
    - split; [now apply map_save_token |].
      intros t' Ht'. apply In_save_token_weak in Ht'.
      destruct Ht' as [-> | Ht']; [exists tok | exists t']; auto. }
  assert (Hother : (forall runner now0 now1 self j lg,
                       c <> RawRun runner now0 now1 self j lg) ->
             map token_id (gltokens (exec c st)) = map token_id (gltokens st)
             /\ (forall t', In t' (gltokens (exec c st)) ->
                   exists t, In t (gltokens st) /\ token_id t' = token_id t
                     /\ token t' = token t /\ token_user t' = token_user t)).
  { intros Hc. rewrite (tokens_unchanged_unless_run st Hc).
    split; [reflexivity |]. intros t' Ht'. exists t'. auto. }
  split; [| split].
  - destruct c; try (apply Hother; intros; discriminate).
    eapply Hrun. reflexivity.
  - destruct c; try (apply Hother; intros; discriminate).
    eapply Hrun. reflexivity.
  - apply tokens_unchanged_unless_run.
Qed.

(** *** users.py: random_user_ready *)

Lemma passes_iff (st : Store) (u : Z) :
  UserManager.passes st u = true
  <-> (forall i, In i (UserManager.intentions st) -> user i <> u)
      \/ exists i, In i (UserManager.intentions st) /\ ready_for st u i.
Proof.
  unfold UserManager.passes.
  set (l := UserManager.intentions st).
  destruct (filter (fun i => user i =? u) l) as [| x mine] eqn:F.
  - split; [| reflexivity]. intros _. left. intros i Hi Hu.
    assert (Hin : In i (filter (fun i => user i =? u) l))
      by (apply filter_In; split; [exact Hi | now apply Z.eqb_eq]).
    rewrite F in Hin. destruct Hin.
  - rewrite <- F. rewrite existsb_exists. split.
    + intros [i [Hi Hb]]. right. apply filter_In in Hi.
      destruct Hi as [Hi Hu]. exists i. split; [exact Hi |].
      apply ready_filter_iff.
      apply andb_true_iff in Hb. destruct Hb as [Hp Hj].
      now rewrite Hp, Hu, Hj.
    + intros [Hnone | [i [Hi Hr]]].
      * assert (Hx : In x (filter (fun i => user i =? u) l))
          by (rewrite F; now left).
        apply filter_In in Hx. destruct Hx as [Hx Hu].
        apply Z.eqb_eq in Hu. destruct (Hnone x Hx Hu).
      * exists i. apply ready_filter_iff in Hr.
        apply andb_true_iff in Hr. destruct Hr as [Hr Hj].
        apply andb_true_iff in Hr. destruct Hr as [Hp Hu].
        split; [apply filter_In; now split | now rewrite Hp, Hj].
Qed.

Lemma pick_in_range (q : list Z) (indices : list nat) :
  (forall i, In i indices -> (i < List.length q)%nat) ->
  UserManager.pick q indices = Some (map (fun i => nth i q 0) indices).
Proof.
  induction indices as [| i l IH]; intros H; [reflexivity |].
  simpl. rewrite IH by (intros k Hk; apply H; now right).
  rewrite (nth_error_nth' q 0) by (apply H; now left).
  reflexivity.
Qed.

Lemma NoDup_map_nth (q : list Z) (indices : list nat) :
  NoDup q -> NoDup indices ->
  (forall i, In i indices -> (i < List.length q)%nat) ->
  NoDup (map (fun i => nth i q 0) indices).
Proof.
  intros Hq. induction indices as [| i l IH]; intros Hn Hr; simpl.
  - constructor.
  - inversion Hn as [| ? ? Hi Hl]. subst. constructor.
    + intros Hin. apply in_map_iff in Hin. destruct Hin as [k [Hk Hkl]].
      assert (k = i).
      { apply (proj1 (NoDup_nth q 0) Hq); [apply Hr; now right
                                          | apply Hr; now left | exact Hk]. }
      subst k. contradiction.
    + apply IH; [exact Hl |]. intros k Hk. apply Hr. now right.
Qed.

(** X18: given a [sample] that draws [k] distinct indices below [n], and
    a user table without repeated keys, [random_user_ready(max)] returns
    [min(max, count)] distinct users of the table, [count] being the
    number of users that pass its filter; and every user returned either
    has an intention with no job and no previous intention, or has no
    intention at all. *)
Theorem random_user_ready_returns_ready_users
  (sample : nat -> nat -> list nat) (users : list Z) (max : nat)
  (st : Store) :
  (forall n k, (k <= n)%nat ->
     List.length (sample n k) = k /\ NoDup (sample n k)
     /\ forall i, In i (sample n k) -> (i < n)%nat) ->
  NoDup users ->
  exists l,
    UserManager.random_user_ready sample users max st = Some l
    /\ List.length l
       = Nat.min max (List.length (filter (UserManager.passes st) users))
    /\ NoDup l
    /\ forall u, In u l ->
         In u users
         /\ ((forall i, In i (UserManager.intentions st) -> user i <> u)
             \/ exists i, In i (UserManager.intentions st)
                          /\ ready_for st u i).
Proof.
  intros Hs Hu. unfold UserManager.random_user_ready. cbv zeta.
  set (q := filter (UserManager.passes st) users).
  destruct (Hs (List.length q) (Nat.min max (List.length q))
               (Nat.le_min_r _ _)) as [Hlen [Hnd Hlt]].
  exists (map (fun i => nth i q 0) (sample (List.length q)
                                           (Nat.min max (List.length q)))).
  split; [now apply pick_in_range |].
  split; [now rewrite length_map |].
  split.
  - apply NoDup_map_nth; [| exact Hnd | exact Hlt].
    now apply NoDup_filter.
  - intros u Hin. apply in_map_iff in Hin. destruct Hin as [i [<- Hi]].
    assert (Hq : In (nth i q 0) q) by (apply nth_In; now apply Hlt).
    apply filter_In in Hq. destruct Hq as [Hq Hp].
    split; [exact Hq | now apply passes_iff].
Qed.

(** X18, witness: users 1, 2 and 3 at [Sample.st_sel], where user 1 has
    ready intentions, the intention of user 2 has its job, and user 3 has
    no intention; the sample takes the first indices. *)
Lemma random_user_ready_returns_ready_users_witness :
  UserManager.random_user_ready (fun _ k => seq 0 k) [1; 2; 3] 5
                                Sample.st_sel = Some [1; 3]
  /\ exists l,
       UserManager.random_user_ready (fun _ k => seq 0 k) [1; 2; 3] 5
                                     Sample.st_sel = Some l
       /\ List.length l = 2%nat /\ NoDup l.
Proof.
  split; [reflexivity |].
  destruct (@random_user_ready_returns_ready_users
              (fun _ k => seq 0 k) [1; 2; 3] 5%nat Sample.st_sel)
    as [l [H1 [H2 [H3 _]]]].
  - intros n k Hk. split; [apply length_seq |].
    split; [apply seq_NoDup |].
    intros i Hi. apply in_seq in Hi. lia.
  - repeat constructor; simpl; intuition discriminate.
  - exists l. split; [exact H1 |]. split; [| exact H3].
    rewrite H2. reflexivity.
Defined.

(** *** create_job, called again *)

Lemma token_jobs_add_present (t : GLToken) (j : Z) (st : Store) :
  In (token_id t, j) (gltoken_jobs st) -> token_jobs_add t j st = st.
Proof.
  intros H. unfold token_jobs_add, m2m_add.
  apply has_pair_In in H. rewrite H. now destruct st.
Qed.

Lemma raw_loop_settled (w : Z) (ts : list GLToken) (self : Intention)
  (jobv : option Job) (st : Store) (j : Z) :
  job self = Some j ->
  (forall t, In t ts -> jobs_count st (token_id t) < MAX_JOBS_TOKEN ->
             In (token_id t, j) (gltoken_jobs st)) ->
  IGLRaw.create_job_loop w ts self jobv st = (self, jobv, st).
Proof.
  intros Hj. induction ts as [| t ts IH]; intros H; [reflexivity |].
  simpl. rewrite Hj.
  destruct (jobs_count st (token_id t) <? MAX_JOBS_TOKEN) eqn:E.
  - apply Z.ltb_lt in E.
    rewrite token_jobs_add_present by (apply H; [now left | exact E]).
    apply IH. intros t' Ht'. apply H. now right.
  - apply IH. intros t' Ht'. apply H. now right.
Qed.

Lemma raw_loop_object (w : Z) (ts : list GLToken) (self : Intention)
  (jobv : option Job) (st : Store) :
  let self' := fst (fst (IGLRaw.create_job_loop w ts self jobv st)) in
  user self' = user self
  /\ ((forall t, In t ts -> MAX_JOBS_TOKEN <= jobs_count st (token_id t))
      \/ job self' = Some (target_job self st)).
Proof.
  cbv zeta. destruct (job self) as [j |] eqn:J.
  - destruct (@raw_loop_with_job w ts self jobv st j J) as [H _].
    rewrite H. simpl. split; [reflexivity |]. right.
    unfold target_job. now rewrite J.
  - destruct (existsb (fun t => jobs_count st (token_id t) <? MAX_JOBS_TOKEN)
                      ts) eqn:E.
    + apply existsb_exists in E. destruct E as [t [Hin Hc]].
      apply Z.ltb_lt in Hc.
      assert (Hex : exists t, In t ts
                      /\ jobs_count st (token_id t) < MAX_JOBS_TOKEN)
        by eauto.
      destruct (@raw_loop_creates w ts self jobv st J Hex) as [H _].
      rewrite H. simpl. split; [reflexivity |]. right.
      unfold target_job. now rewrite J.
    + assert (Hidle : forall t, In t ts ->
                        MAX_JOBS_TOKEN <= jobs_count st (token_id t)).
      { intros t Hin. apply Z.ltb_ge.
        destruct (jobs_count st (token_id t) <? MAX_JOBS_TOKEN) eqn:Hc;
          [| reflexivity].
        assert (existsb (fun t => jobs_count st (token_id t)
                                  <? MAX_JOBS_TOKEN) ts = true)
          by (apply existsb_exists; eauto).
        congruence. }
      rewrite raw_loop_idle by exact Hidle.
      simpl. split; [reflexivity |]. now left.
Qed.

(** X19: [create_job] called a second time, on the intention object and
    the store that a first call left, returns no job and changes
    nothing, whatever the worker: one intention object gets at most one
    job from it, and a token is attached to that job once. *)
Theorem create_job_again_does_nothing (w w' : Z) (self : Intention)
  (st : Store) :
  (let c := IGLRaw.create_job w self st in
   IGLRaw.create_job w' (snd (fst c)) (snd c) = (None, snd (fst c), snd c))
  /\
  (let c := IGLEnrich.create_job w self st in
   IGLEnrich.create_job w' (snd (fst c)) (snd c)
   = (None, snd (fst c), snd c)).
Proof.
  split; cbv zeta.
  - rewrite (raw_create_job_loop w self st). cbv zeta. simpl fst. simpl snd.
    rewrite raw_create_job_loop. cbv zeta. simpl fst. simpl snd.
    set (ts := filter (user_is (user self)) (gltokens st)).
    destruct (raw_loop_frame w ts self None st) as [Ftok _].
    destruct (raw_loop_object w ts self None st) as [Hu Hcase].
    pose proof (raw_loop_pairs w ts self None st) as Hpairs.
    destruct (raw_loop_extends w ts self None st) as [added Hext].
    rewrite Hu, Ftok. fold ts.
    destruct Hcase as [Hidle | Hsome].
    + rewrite (@raw_loop_idle w ts self None st Hidle). simpl.
      now rewrite (@raw_loop_idle w' ts self None st Hidle).
    + rewrite (@raw_loop_settled w' ts _ None _ _ Hsome); [reflexivity |].
      intros t Hin Hc. apply Hpairs. right. exists t.
      split; [exact Hin |]. split; [| reflexivity].
      pose proof (jobs_count_extends st _ added (token_id t) Hext). lia.
  - unfold IGLEnrich.create_job. destruct (job self) as [j |] eqn:J; simpl.
    + now rewrite J.
    + reflexivity.
Qed.

(** *** The token that IGLRaw.run uses *)

(** X20: when some token attached to the job is past its reset,
    [IGLRaw.run] works with the first such token in the order of the
    token table, and the runner comes into the outcome only through
    what it returns for the URL of the repository and the secret of
    that token. *)
Theorem raw_run_uses_first_ready_token (now0 : Z) (j : Job) (st : Store) :
  token_past_reset st now0 (job_id j) ->
  exists before tok after,
    gltokens st = before ++ tok :: after
    /\ In (token_id tok, job_id j) (gltoken_jobs st)
    /\ reset tok < now0
    /\ (forall t, In t before ->
                  In (token_id t, job_id j) (gltoken_jobs st) ->
                  now0 <= reset t)
    /\ forall (R1 R2 : string -> string -> result Z) (now1 : Z)
              (self : Intention) (lg : list Handler) (u : string),
         url (irepo self) = Ok u ->
         R1 u (token tok) = R2 u (token tok) ->
         IGLRaw.run R1 now0 now1 self j st lg
         = IGLRaw.run R2 now0 now1 self j st lg.
Proof.
  intros [t0 [Hin0 [Hp0 Hr0]]].
  destruct (IGLRaw.ready_token st now0 j) as [tok |] eqn:E.
  - pose proof E as E'. unfold IGLRaw.ready_token in E'.
    destruct (find_split _ _ E') as [l1 [l2 [Hl Hbefore]]].
    apply find_some in E'. destruct E' as [_ Hb].
    apply andb_true_iff in Hb. destruct Hb as [Hp Hr].
    apply has_pair_In in Hp. apply Z.ltb_lt in Hr.
    exists l1, tok, l2. repeat split; try assumption.
    + intros t Ht Hpt. specialize (Hbefore t Ht). simpl in Hbefore.
      apply has_pair_In in Hpt. rewrite Hpt in Hbefore. simpl in Hbefore.
      now apply Z.ltb_ge.
    + intros R1 R2 now1 self lg u Hu HR. unfold IGLRaw.run.
      rewrite E, Hu. cbv zeta. now rewrite HR.
  - unfold IGLRaw.ready_token in E.
    pose proof (find_none _ _ E t0 Hin0) as Hf. simpl in Hf.
    apply has_pair_In in Hp0. apply Z.ltb_lt in Hr0.
    rewrite Hp0, Hr0 in Hf. discriminate.
Qed.

(** X20, witness: the token of [Sample.st_run], an hour after its
    reset. *)
Lemma raw_run_uses_first_ready_token_witness :
  token_past_reset Sample.st_run Sample.t1 1
  /\ exists tok, In tok (gltokens Sample.st_run) /\ reset tok < Sample.t1.
Proof.
  assert (H : token_past_reset Sample.st_run Sample.t1
                               (job_id Sample.job1)).
  { exists Sample.token1. split; [now left |]. split; [now left |].
    reflexivity. }
  split; [exact H |].
  destruct (raw_run_uses_first_ready_token Sample.job1 H)
    as [before [tok [after [Hl [_ [Hr _]]]]]].
  exists tok. split; [| exact Hr]. rewrite Hl. apply in_or_app.
  right. now left.
Defined.

(** *** The cap, over sequences of calls *)

(** X21: over any sequence of calls of the module that contains no
    [IGLRaw.running_job], the cap holds at the end if it held at the
    start: no token is attached to more than [MAX_JOBS_TOKEN] jobs. *)
Theorem cap_kept_without_running_job (cs : list call) (st : Store) :
  Forall (fun c => forall self, c <> RawRunningJob self) cs ->
  within_cap st -> within_cap (exec_all cs st).
Proof.
  revert st. induction cs as [| c cs IH]; intros st Hcs H; [exact H |].
  inversion Hcs as [| ? ? Hc Hrest]. subst. simpl.
  apply IH; [exact Hrest |]. now apply within_cap_exec.
Qed.

(** X21, witness: at [Sample.st_sel], a job is created for [i3], then for
    [i5], and a worker asks for a job. *)
Lemma cap_kept_without_running_job_witness :
  within_cap Sample.st_sel
  /\ within_cap (exec_all [RawCreateJob 7 Sample.i3;
                           RawCreateJob 7 Sample.i5;
                           RawNextJob 8 Sample.t1] Sample.st_sel)
  /\ jobs_count (exec_all [RawCreateJob 7 Sample.i3;
                           RawCreateJob 7 Sample.i5;
                           RawNextJob 8 Sample.t1] Sample.st_sel) 1 = 3.
Proof.
  assert (H : within_cap Sample.st_sel).
  { unfold Sample.st_sel. now repeat apply create_and_save_within_cap;
      intros t; vm_compute; discriminate. }
  split; [exact H |]. split; [| reflexivity].
  apply cap_kept_without_running_job; [| exact H].
  repeat constructor; intros self; discriminate.
Defined.

(** *** Jobs and prerequisites, under the discipline of the scheduler *)











